(** * dxfnest: bounding-box nesting with a genetic order search

    A shallow embedding of [dxfnest.py]: the [Sheet] placement engine
    ([can_place], [check_overlap], [add_part]), the first-fit lattice scan used
    by [fitness] and by [nest_parts], and the genetic search over part orders
    ([crossover], [mutate], [genetic_algorithm]).

    Modelling decisions.
    - Coordinates are integers ([Z]).  The candidate offsets come from
      [range(0, w, 10)] and are integers in the source as well; the
      coordinates read from a DXF file are floats there, so the sums that
      [can_place] and [check_overlap] compare are modelled on the values for
      which they are exact.  What is said of a layout is therefore said
      through the answers of [can_place] and [check_overlap] themselves.
    - For the sheet and the optimizer a part is given by its file name and
      its bounding box; [Part.__init__] is modelled apart, on the entities
      of the file.
    - A [Part] is a Python object that is shared between the [parts] list and
      every [Sheet] it was added to.  Its immutable fields are the record
      [Part]; the serial number [pid] tells apart two objects loaded from the
      same file.  The one mutable attribute, [position], lives in a [Store]
      that records every assignment [part.position = position], newest first.
    - Python exceptions are the [Raise] results of an error monad; the module
      [random] is an oracle [rnd : nat -> Z] read at an advancing cursor. *)

From Stdlib Require Import ZArith QArith Lia.
From stdpp Require Import base tactics option list strings numbers sorting.

Local Open Scope Z_scope.

(** ** Exceptions and the state-and-error monad *)

Inductive exn : Type := ValueError | IndexError | AttributeError.

Inductive result (A : Type) : Type :=
| Ok (a : A)
| Raise (e : exn).
Arguments Ok {A} a.
Arguments Raise {A} e.

Definition M (S A : Type) : Type := S -> result (A * S).

Definition ret {S A} (a : A) : M S A := fun s => Ok (a, s).

Definition bind {S A B} (m : M S A) (f : A -> M S B) : M S B :=
  fun s => match m s with
           | Ok (a, s') => f a s'
           | Raise e => Raise e
           end.

Definition raise {S A} (e : exn) : M S A := fun _ => Raise e.

(** A computation that only reads the state. *)
Definition read {S A} (f : S -> result A) : M S A :=
  fun s => match f s with
           | Ok a => Ok (a, s)
           | Raise e => Raise e
           end.

Declare Scope py_scope.
Delimit Scope py_scope with py.
Notation "x <- m ;; k" := (bind m (fun x => k))
  (at level 100, m at next level, right associativity) : py_scope.
Notation "'let*' p ':=' m 'in' k" := (bind m (fun x => match x with p => k end))
  (at level 10, p pattern, m at level 100, k at level 200) : py_scope.
Local Open Scope py_scope.

(** [l[i]] on a Python list, for a non-negative index. *)
Definition subscript {S A} (l : list A) (i : nat) : M S A :=
  match l !! i with
  | Some a => ret a
  | None => raise IndexError
  end.

(** ** Data model *)

Definition Position : Type := Z * Z.

(** [(min_x, min_y, max_x, max_y)] *)
Definition BoundingBox : Type := Z * Z * Z * Z.

Record Part : Type := mkPart {
  pid : nat;
  filename : string;
  bounding_box : BoundingBox
}.

Global Instance Part_eq_dec : EqDecision Part.
Proof. solve_decision. Defined.

Record Sheet : Type := mkSheet {
  width : Z;
  height : Z;
  parts : list Part
}.

(** [Sheet.__init__] *)
Definition new_Sheet (width height : Z) : Sheet := mkSheet width height [].

(** Every assignment [part.position = position] made so far, newest first. *)
Definition Store : Type := list (Part * Position).

(** Reading [part.position]: the attribute does not exist until it has been
    assigned ([Part.__init__] does not create it). *)
Fixpoint position (h : Store) (part : Part) : result Position :=
  match h with
  | [] => Raise AttributeError
  | (q, pos) :: h' => if decide (q = part) then Ok pos else position h' part
  end.

(** [part.position = position] *)
Definition set_position (part : Part) (pos : Position) : M Store unit :=
  fun h => Ok (tt, (part, pos) :: h).

(** How many times [part.position] has been assigned. *)
Definition assignments (h : Store) (part : Part) : nat :=
  length (filter (fun e => e.1 = part) h).

(** ** Sheet: the placement engine *)

Definition check_overlap (h : Store) (part : Part) (position1 : Position)
    (placed_part : Part) : result bool :=
  let '(min_x1, min_y1, max_x1, max_y1) := bounding_box part in
  let '(x_offset1, y_offset1) := position1 in
  let '(min_x2, min_y2, max_x2, max_y2) := bounding_box placed_part in
  match position h placed_part with
  | Raise e => Raise e
  | Ok (x_offset2, y_offset2) =>
    let rect1 := (min_x1 + x_offset1, min_y1 + y_offset1,
                  max_x1 + x_offset1, max_y1 + y_offset1) in
    let rect2 := (min_x2 + x_offset2, min_y2 + y_offset2,
                  max_x2 + x_offset2, max_y2 + y_offset2) in
    let '(r1_0, r1_1, r1_2, r1_3) := rect1 in
    let '(r2_0, r2_1, r2_2, r2_3) := rect2 in
    Ok (negb ((r1_2 <=? r2_0) || (r1_0 >=? r2_2) ||
              (r1_3 <=? r2_1) || (r1_1 >=? r2_3)))
  end.

(** The loop [for placed_part in self.parts] of [can_place]. *)
Fixpoint can_place_loop (h : Store) (part : Part) (pos : Position)
    (placed : list Part) : result bool :=
  match placed with
  | [] => Ok true
  | placed_part :: rest =>
    match check_overlap h part pos placed_part with
    | Raise e => Raise e
    | Ok true => Ok false
    | Ok false => can_place_loop h part pos rest
    end
  end.

Definition can_place (h : Store) (self : Sheet) (part : Part)
    (pos : Position) : result bool :=
  let '(min_x, min_y, max_x, max_y) := bounding_box part in
  let '(x_offset, y_offset) := pos in
  if (min_x + x_offset <? 0) || (max_x + x_offset >? width self) ||
     (min_y + y_offset <? 0) || (max_y + y_offset >? height self)
  then Ok false
  else can_place_loop h part pos (parts self).

(** [self.parts.append(part)] *)
Definition append_part (self : Sheet) (part : Part) : Sheet :=
  mkSheet (width self) (height self) (parts self ++ [part]).

Definition add_part (self : Sheet) (part : Part) (pos : Position)
    : M Store (bool * Sheet) :=
  ok <- read (fun h => can_place h self part pos) ;;
  if ok then
    _ <- set_position part pos ;;
    ret (true, append_part self part)
  else ret (false, self).

(** ** Candidate search: the two nested [for] loops with [break] *)

(** [range(0, stop, step)] for a positive [step]. *)
Definition py_range (stop step : Z) : list Z :=
  map (fun k => Z.of_nat k * step) (seq 0 (Z.to_nat ((stop + step - 1) / step))).

(** [for y in range(0, sheet_height, 10): if sheet.add_part(part, (x, y)): ...] *)
Fixpoint scan_y (sheet : Sheet) (part : Part) (x : Z) (ys : list Z)
    : M Store (bool * Sheet) :=
  match ys with
  | [] => ret (false, sheet)
  | y :: ys' =>
    let* (ok, sheet') := add_part sheet part (x, y) in
    if ok then ret (true, sheet') else scan_y sheet' part x ys'
  end.

(** [for x in range(0, sheet_width, 10): ...; if placed: break] *)
Fixpoint scan_x (sheet : Sheet) (part : Part) (xs ys : list Z)
    : M Store (bool * Sheet) :=
  match xs with
  | [] => ret (false, sheet)
  | x :: xs' =>
    let* (placed, sheet') := scan_y sheet part x ys in
    if placed then ret (true, sheet') else scan_x sheet' part xs' ys
  end.

(** The scan as [fitness] and [nest_parts] both write it, at step 10;
    the result is the flag [placed] and the sheet. *)
Definition first_fit (sheet_width sheet_height : Z) (sheet : Sheet)
    (part : Part) : M Store (bool * Sheet) :=
  scan_x sheet part (py_range sheet_width 10) (py_range sheet_height 10).

(** ** The module [random] *)

(** The state of a run: the random source's cursor and the parts' positions. *)
Record State : Type := mkState {
  cursor : nat;
  store : Store
}.

(** Run a computation on the store inside a run. *)
Definition on_store {A} (m : M Store A) : M State A :=
  fun s => match m (store s) with
           | Ok (a, h) => Ok (a, mkState (cursor s) h)
           | Raise e => Raise e
           end.

Section Random.

(** The random source: the raw value of the [c]-th draw. *)
Variable rnd : nat -> Z.

Definition draw : M State Z :=
  fun s => Ok (rnd (cursor s), mkState (S (cursor s)) (store s)).

(** A uniform index below [n] (for [n > 0]). *)
Definition randbelow (n : nat) : M State nat :=
  d <- draw ;; ret (Z.to_nat (d mod Z.of_nat n)).

(** [random.randint(a, b)]: raises [ValueError] on an empty range. *)
Definition randint (a b : Z) : M State Z :=
  if b <? a then raise ValueError
  else j <- randbelow (Z.to_nat (b - a + 1)) ;; ret (a + Z.of_nat j).

(** [a < b] on rationals. *)
Definition Qlt_bool (a b : Q) : bool := negb (Qle_bool b a).

(** [random.random()]: a multiple of [2^-53] in [[0, 1)]. *)
Definition random_random : M State Q :=
  d <- draw ;; ret (Qmake (d mod 2 ^ 53) (2 ^ 53)%positive).

(** Selection without replacement: [k] successive uniform picks, each
    removed from the pool. *)
Fixpoint sample_loop {A} (pool : list A) (k : nat) : M State (list A) :=
  match k with
  | O => ret []
  | S k' =>
    j <- randbelow (length pool) ;;
    x <- subscript pool j ;;
    rest <- sample_loop (delete j pool) k' ;;
    ret (x :: rest)
  end.

(** [random.sample(population, k)]: raises [ValueError] when the sample is
    larger than the population. *)
Definition random_sample {A} (population : list A) (k : nat) : M State (list A) :=
  if (length population <? k)%nat then raise ValueError
  else sample_loop population k.

End Random.

(** ** Fitness values: an [int] or [float('inf')] *)

Inductive fitness_value : Type :=
| Finite (n : nat)
| Infinity.

(** [a <= b] on fitness values. *)
Definition fitness_le (a b : fitness_value) : bool :=
  match a, b with
  | _, Infinity => true
  | Infinity, Finite _ => false
  | Finite m, Finite n => (m <=? n)%nat
  end.

(** [a < b] on fitness values. *)
Definition fitness_lt (a b : fitness_value) : bool := negb (fitness_le b a).

(** [f == n] for an [int] [n]. *)
Definition fitness_eq_int (f : fitness_value) (n : nat) : bool :=
  match f with
  | Finite m => (m =? n)%nat
  | Infinity => false
  end.

(** [list.sort(key=...)] is stable: an element moves in front of the ones
    whose key is strictly greater only. *)
Fixpoint insert_by_key {A} (x : fitness_value * A) (l : list (fitness_value * A))
    : list (fitness_value * A) :=
  match l with
  | [] => [x]
  | y :: l' => if fitness_le x.1 y.1 then x :: y :: l' else y :: insert_by_key x l'
  end.

Fixpoint sort_by_key {A} (l : list (fitness_value * A)) : list (fitness_value * A) :=
  match l with
  | [] => []
  | x :: l' => insert_by_key x (sort_by_key l')
  end.

(** [[f(x) for x in l]], evaluated left to right. *)
Fixpoint for_each {S A B} (f : A -> M S B) (l : list A) : M S (list B) :=
  match l with
  | [] => ret []
  | x :: l' => y <- f x ;; ys <- for_each f l' ;; ret (y :: ys)
  end.

(** ** The order optimizer *)

Section GeneticAlgorithm.

(** The arguments of [genetic_algorithm], which its inner functions close
    over, and the random source. *)
Variable rnd : nat -> Z.
Variables sheet_width sheet_height : Z.
Variable part_list : list Part.
Variables population_size generations : nat.
Variable mutation_rate : Q.

(** [[random.sample(range(len(parts)), len(parts)) for _ in range(population_size)]] *)
Definition initialize_population : M State (list (list nat)) :=
  for_each (fun _ => random_sample rnd (seq 0 (length part_list)) (length part_list))
           (seq 0 population_size).

(** The loop [for index in order] of [fitness]. *)
Fixpoint fitness_loop (sheet : Sheet) (order : list nat) : M Store fitness_value :=
  match order with
  | [] => ret (Finite (length (parts sheet)))
  | index :: rest =>
    part <- subscript part_list index ;;
    let* (placed, sheet') := first_fit sheet_width sheet_height sheet part in
    if placed then fitness_loop sheet' rest else ret Infinity
  end.

Definition fitness (order : list nat) : M Store fitness_value :=
  fitness_loop (new_Sheet sheet_width sheet_height) order.

Definition crossover (parent1 parent2 : list nat) : M State (list nat) :=
  point <- randint rnd 1 (Z.of_nat (length parent1) - 1) ;;
  let prefix := take (Z.to_nat point) parent1 in
  ret (prefix ++ filter (fun x => x ∉ prefix) parent2).

(** [mutate] changes [order] in place; the model returns the list after the
    call.  [order[i], order[j] = order[j], order[i]] reads both, then writes
    [order[i]], then [order[j]]. *)
Definition mutate (order : list nat) : M State (list nat) :=
  u <- random_random rnd ;;
  if Qlt_bool u mutation_rate then
    ij <- random_sample rnd (seq 0 (length order)) 2 ;;
    match ij with
    | [i; j] =>
      oj <- subscript order j ;;
      oi <- subscript order i ;;
      ret (<[j := oi]> (<[i := oj]> order))
    | _ => raise ValueError
    end
  else ret order.

(** [population.sort(key=fitness)]: the keys are computed first, one call of
    [fitness] per individual in list order. *)
Definition sort_population (population : list (list nat)) : M State (list (list nat)) :=
  keys <- for_each (fun order => on_store (fitness order)) population ;;
  ret (map snd (sort_by_key (zip keys population))).

(** The body of [for _ in range(population_size // 2)], run [count] times;
    [next_generation] is the list built so far. *)
Fixpoint reproduce (population : list (list nat)) (count : nat)
    (next_generation : list (list nat)) : M State (list (list nat)) :=
  match count with
  | O => ret next_generation
  | S count' =>
    parents <- random_sample rnd (take 10 population) 2 ;;
    match parents with
    | [parent1; parent2] =>
      child1 <- crossover parent1 parent2 ;;
      child2 <- crossover parent2 parent1 ;;
      child1 <- mutate child1 ;;
      child2 <- mutate child2 ;;
      reproduce population count' (next_generation ++ [child1; child2])
    | _ => raise ValueError
    end
  end.

(** [for generation in range(generations)], with [remaining] iterations left. *)
Fixpoint generation_loop (remaining : nat) (population : list (list nat))
    : M State (list (list nat)) :=
  match remaining with
  | O => ret population
  | S remaining' =>
    population <- sort_population population ;;
    best <- subscript population 0 ;;
    f <- on_store (fitness best) ;;
    if fitness_eq_int f (length part_list) then ret population
    else
      next_generation <- reproduce population (population_size / 2)%nat [] ;;
      generation_loop remaining' next_generation
  end.

Definition genetic_algorithm : M State (list nat) :=
  population <- initialize_population ;;
  population <- generation_loop generations population ;;
  subscript population 0.

End GeneticAlgorithm.

(** ** The nesting driver *)

(** [Part(file)]: a new object; the [n]-th object made gets serial number [n]. *)
Definition new_Part (n : nat) (file : string * BoundingBox) : Part :=
  mkPart n file.1 file.2.

(** The loop [for index in best_order] of [nest_parts]; the flag [placed] is
    not read after the scan. *)
Fixpoint replay (sheet_width sheet_height : Z) (part_list : list Part)
    (sheet : Sheet) (best_order : list nat) : M Store Sheet :=
  match best_order with
  | [] => ret sheet
  | index :: rest =>
    part <- subscript part_list index ;;
    let* (placed, sheet') := first_fit sheet_width sheet_height sheet part in
    replay sheet_width sheet_height part_list sheet' rest
  end.

(** [nest_parts]; [part_files] pairs each file name with the bounding box
    that loading the file yields. *)
Definition nest_parts (rnd : nat -> Z) (sheet_width sheet_height : Z)
    (part_files : list (string * BoundingBox)) : M State Sheet :=
  let sheet := new_Sheet sheet_width sheet_height in
  let part_list := imap new_Part part_files in
  best_order <- genetic_algorithm rnd sheet_width sheet_height part_list
                  50 100 (1 # 10) ;;
  on_store (replay sheet_width sheet_height part_list sheet best_order).

(** The state in which a run starts: nothing drawn, no position assigned. *)
Definition initial_state : State := mkState 0 [].

(** * Vocabulary of the properties *)

(** ** Rectangles *)

(** The rectangle a bounding box covers once translated by an offset; this is
    [rect1] and [rect2] of [check_overlap]. *)
Definition translated (box : BoundingBox) (pos : Position) : BoundingBox :=
  let '(min_x, min_y, max_x, max_y) := box in
  let '(x_offset, y_offset) := pos in
  (min_x + x_offset, min_y + y_offset, max_x + x_offset, max_y + y_offset).

Definition r_min_x (r : BoundingBox) : Z := r.1.1.1.
Definition r_min_y (r : BoundingBox) : Z := r.1.1.2.
Definition r_max_x (r : BoundingBox) : Z := r.1.2.
Definition r_max_y (r : BoundingBox) : Z := r.2.

(** One rectangle is entirely to the left of, right of, below or above the
    other (touching edges count as separated). *)
Definition separated (r1 r2 : BoundingBox) : Prop :=
  r_max_x r1 <= r_min_x r2 \/ r_min_x r1 >= r_max_x r2 \/
  r_max_y r1 <= r_min_y r2 \/ r_min_y r1 >= r_max_y r2.

(** The rectangle lies on the sheet. *)
Definition inside (self : Sheet) (r : BoundingBox) : Prop :=
  0 <= r_min_x r /\ r_max_x r <= width self /\
  0 <= r_min_y r /\ r_max_y r <= height self.


(** ** Sheets and stores *)

(** Every part on the sheet has been given a position. *)
Definition positioned (h : Store) (self : Sheet) : Prop :=
  forall q, q ∈ parts self -> exists pos, position h q = Ok pos.

(** The candidate lattice of a scan at the given step. *)
Definition on_lattice (sheet_width sheet_height step : Z) (pos : Position) : Prop :=
  (0 <= pos.1 < sheet_width /\ pos.1 mod step = 0) /\
  (0 <= pos.2 < sheet_height /\ pos.2 mod step = 0).

(** Scan order: [x] in the outer loop, [y] in the inner one. *)
Definition scanned_before_or_at (p q : Position) : Prop :=
  p.1 < q.1 \/ (p.1 = q.1 /\ p.2 <= q.2).

(** A sequence of [add_part] calls on one sheet, with their return values. *)
Fixpoint add_parts (self : Sheet) (calls : list (Part * Position))
    : M Store (list bool * Sheet) :=
  match calls with
  | [] => ret ([], self)
  | (part, pos) :: rest =>
    let* (ok, self') := add_part self part pos in
    let* (oks, self'') := add_parts self' rest in
    ret (ok :: oks, self'')
  end.

(** Every accepted part, translated by its position, lies on the sheet. *)
Definition contained (h : Store) (self : Sheet) : Prop :=
  forall q, q ∈ parts self ->
    exists pos, position h q = Ok pos /\
                inside self (translated (bounding_box q) pos).

(** No two entries of the accepted list overlap, under [check_overlap]. *)
Definition entries_disjoint (h : Store) (self : Sheet) : Prop :=
  forall i j qi qj, i <> j ->
    parts self !! i = Some qi -> parts self !! j = Some qj ->
    exists pos, position h qi = Ok pos /\ check_overlap h qi pos qj = Ok false.

(** No two different accepted [Part] objects overlap, under [check_overlap]. *)
Definition objects_disjoint (h : Store) (self : Sheet) : Prop :=
  forall qi qj, qi ∈ parts self -> qj ∈ parts self -> qi <> qj ->
    exists pos, position h qi = Ok pos /\ check_overlap h qi pos qj = Ok false.

(** The invariant of the sheet, over the entries of the accepted list. *)
Definition sheet_invariant (h : Store) (self : Sheet) : Prop :=
  contained h self /\ entries_disjoint h self.

(** The invariant of the sheet, over the accepted objects. *)
Definition sheet_invariant_objects (h : Store) (self : Sheet) : Prop :=
  contained h self /\ objects_disjoint h self.

(** The bounds test of [can_place] alone: what [can_place] answers on the
    empty sheet of the same size.  The sums it compares are the ones the code
    computes. *)
Definition passes_bounds_test (self : Sheet) (part : Part) (pos : Position) : Prop :=
  can_place [] (new_Sheet (width self) (height self)) part pos = Ok true.

(** Every accepted part has a position at which it passes the bounds test. *)
Definition accepted_in_bounds (h : Store) (self : Sheet) : Prop :=
  forall q, q ∈ parts self ->
    exists pos, position h q = Ok pos /\ passes_bounds_test self q pos.


Definition layout_entries (h : Store) (self : Sheet) : Prop :=
  accepted_in_bounds h self /\ entries_disjoint h self.

(** ** Runs *)

(** The computation returns from state [s], with a result and a final state
    that satisfy [Q]. *)
Definition returns {S A} (m : M S A) (s : S) (Q : A -> S -> Prop) : Prop :=
  exists a s', m s = Ok (a, s') /\ Q a s'.

(** Whenever the computation returns, the states before and after it are
    related by [R]. *)
Definition keeps {S A} (R : S -> S -> Prop) (m : M S A) : Prop :=
  forall s a s', m s = Ok (a, s') -> R s s'.

(** ** The history of a run *)




(** The individual is a permutation of the indices [[0, n)]. *)
Definition valid_individual (n : nat) (order : list nat) : Prop :=
  order ≡ₚ seq 0 n.

(** No offset of the step-10 lattice takes the part on the empty sheet. *)
Definition unplaceable (sheet_width sheet_height : Z) (part : Part) : Prop :=
  forall pos, on_lattice sheet_width sheet_height 10 pos ->
    can_place [] (new_Sheet sheet_width sheet_height) part pos = Ok false.

(** The parts an order names, in that order. *)
Definition named (part_list : list Part) (order : list nat) : list Part :=
  omap (fun index => part_list !! index) order.

(** How often [part] occurs in a list of parts. *)
Definition occurrences (part : Part) (l : list Part) : nat :=
  length (filter (fun q => q = part) l).

(** A random source given by its first draws; later draws are 0. *)
Definition draws (l : list Z) : nat -> Z := fun c => nth c l 0.

(** ** Values and stores of two runs *)

(** What a run returns, without its final state. *)
Definition value_of {S A} (r : result (A * S)) : result A :=
  match r with
  | Ok (a, _) => Ok a
  | Raise e => Raise e
  end.

(** Two stores give the listed parts the same positions. *)
Definition agree_on (h1 h2 : Store) (l : list Part) : Prop :=
  forall q, q ∈ l -> position h1 q = position h2 q.

(** Two runs of a step on a sheet end alike: the same flag and sheet, with
    stores that agree on the parts of that sheet, or the same exception. *)
Definition alike (r1 r2 : result (bool * Sheet * Store)) : Prop :=
  match r1, r2 with
  | Ok ((ok1, sheet1), h1), Ok ((ok2, sheet2), h2) =>
    ok1 = ok2 /\ sheet1 = sheet2 /\ agree_on h1 h2 (parts sheet1)
  | Raise e1, Raise e2 => e1 = e2
  | _, _ => False
  end.

(** Some offset of the step-10 lattice takes the part on the empty sheet. *)
Definition placeable (sheet_width sheet_height : Z) (part : Part) : Prop :=
  exists pos, on_lattice sheet_width sheet_height 10 pos /\
              can_place [] (new_Sheet sheet_width sheet_height) part pos = Ok true.

(** The list with the elements at [i] and [j] exchanged. *)
Definition swapped {A} (l : list A) (i j : nat) (l' : list A) : Prop :=
  exists x y, l !! i = Some x /\ l !! j = Some y /\ l' = <[j := x]> (<[i := y]> l).

(** * The geometry of a part and the export *)

(** ** Entities *)

Definition Point : Type := Z * Z.

(** The entities of a drawing: the four kinds the program reads, with the
    attributes it reads, and [OTHER] for an entity of any other kind. *)
Inductive Entity : Type :=
| LINE (start finish : Point)
| LWPOLYLINE (vertices : list Point)
| CIRCLE (center : Point) (radius : Z)
| ARC (center : Point) (radius : Z) (start_angle end_angle : Z)
| OTHER (kind : string).

(** [entity.dxftype()] *)
Definition dxftype (entity : Entity) : string :=
  match entity with
  | LINE _ _ => "LINE"
  | LWPOLYLINE _ => "LWPOLYLINE"
  | CIRCLE _ _ => "CIRCLE"
  | ARC _ _ _ _ => "ARC"
  | OTHER kind => kind
  end.

(** [Part.load_entities], on the model space of the file that was read. *)
Definition load_entities (msp : list Entity) : list Entity :=
  filter (fun entity => dxftype entity ∈ ["LINE"; "LWPOLYLINE"; "CIRCLE"; "ARC"]) msp.

(** [min(...)] and [max(...)] of a generator: [ValueError] when it is empty. *)
Definition py_min (l : list Z) : result Z :=
  match l with
  | [] => Raise ValueError
  | x :: l' => Ok (foldl Z.min x l')
  end.

Definition py_max (l : list Z) : result Z :=
  match l with
  | [] => Raise ValueError
  | x :: l' => Ok (foldl Z.max x l')
  end.

Section Sampling.

(** The functions of [math] stay abstract: [circle_dx radius i] stands for
    [radius * cos(2 * pi * i / 36)], [arc_dx radius start_angle end_angle i]
    for [radius * cos(start + i * step)] with the angles in radians, and the
    [dy] for the sines.  Every call in the source takes the default
    [segments = 36]. *)
Variables circle_dx circle_dy : Z -> nat -> Z.
Variables arc_dx arc_dy : Z -> Z -> Z -> nat -> Z.

Definition approximate_circle (center : Point) (radius : Z) : list Point :=
  map (fun i => (center.1 + circle_dx radius i, center.2 + circle_dy radius i))
      (seq 0 36).

Definition approximate_arc (center : Point) (radius start_angle end_angle : Z)
    : list Point :=
  map (fun i => (center.1 + arc_dx radius start_angle end_angle i,
                 center.2 + arc_dy radius start_angle end_angle i))
      (seq 0 (36 + 1)).

(** The points one entity adds to [points] in [calculate_bounding_box]. *)
Definition entity_points (entity : Entity) : list Point :=
  match entity with
  | LINE start finish => [start; finish]
  | LWPOLYLINE vertices => vertices
  | CIRCLE center radius => approximate_circle center radius
  | ARC center radius start_angle end_angle =>
    approximate_arc center radius start_angle end_angle
  | OTHER _ => []
  end.

(** [points] after the loop over [self.entities]. *)
Definition sample_points (entities : list Entity) : list Point :=
  concat (map entity_points entities).

Definition calculate_bounding_box (entities : list Entity) : result BoundingBox :=
  let points := sample_points entities in
  match py_min (map fst points) with
  | Raise e => Raise e
  | Ok min_x =>
    match py_max (map fst points) with
    | Raise e => Raise e
    | Ok max_x =>
      match py_min (map snd points) with
      | Raise e => Raise e
      | Ok min_y =>
        match py_max (map snd points) with
        | Raise e => Raise e
        | Ok max_y => Ok (min_x, min_y, max_x, max_y)
        end
      end
    end
  end.

(** [Part.__init__] for the [n]-th object, on the model space of its file:
    the new part and its [entities]. *)
Definition Part_init (n : nat) (name : string) (msp : list Entity)
    : result (Part * list Entity) :=
  let entities := load_entities msp in
  match calculate_bounding_box entities with
  | Raise e => Raise e
  | Ok box => Ok (mkPart n name box, entities)
  end.

End Sampling.

(** ** [export_to_dxf] *)





(** An entity that adds no point to a bounding box: one of another kind, or a
    polyline without vertices. *)
Definition pointless (entity : Entity) : Prop :=
  match entity with
  | OTHER _ => True
  | LWPOLYLINE vertices => vertices = []
  | _ => False
  end.

(** The point lies in the rectangle. *)
Definition in_box (box : BoundingBox) (p : Point) : Prop :=
  r_min_x box <= p.1 <= r_max_x box /\ r_min_y box <= p.2 <= r_max_y box.

(** * The driver that sorts by area ([dxfnest copy.py]) *)

(** The key of [optimize_parts]: width times height of the bounding box. *)
Definition area (part : Part) : Z :=
  let '(min_x, min_y, max_x, max_y) := bounding_box part in
  (max_x - min_x) * (max_y - min_y).

(** [parts.sort(key=..., reverse=True)] is stable as well: a part moves in
    front of the ones whose area is not greater only. *)
Fixpoint insert_by_area (x : Part) (l : list Part) : list Part :=
  match l with
  | [] => [x]
  | y :: l' => if area y <=? area x then x :: y :: l' else y :: insert_by_area x l'
  end.

Fixpoint optimize_parts (part_list : list Part) : list Part :=
  match part_list with
  | [] => []
  | x :: l => insert_by_area x (optimize_parts l)
  end.

(** What [print] writes for a part that was not placed. *)
Definition could_not_place (part : Part) : string :=
  String.append "Could not place part: " (filename part).

(** The loop [for part in parts] of this driver: the scan goes over every
    integer offset, [range(sheet.width)] by [range(sheet.height)]; the result
    is the sheet and the lines printed. *)
Fixpoint nest_loop (sheet : Sheet) (part_list : list Part)
    : M Store (Sheet * list string) :=
  match part_list with
  | [] => ret (sheet, [])
  | part :: rest =>
    let* (placed, sheet') :=
      scan_x sheet part (py_range (width sheet) 1) (py_range (height sheet) 1) in
    let* (sheet'', printed) := nest_loop sheet' rest in
    ret (sheet'', if placed : bool then printed else could_not_place part :: printed)
  end.

(** [nest_parts] of [dxfnest copy.py]. *)
Definition nest_parts_by_area (sheet_width sheet_height : Z)
    (part_files : list (string * BoundingBox)) : M Store (Sheet * list string) :=
  let sheet := new_Sheet sheet_width sheet_height in
  let part_list := imap new_Part part_files in
  let part_list := optimize_parts part_list in
  nest_loop sheet part_list.

(** * Further vocabulary *)

(** The fitness of an order; by [fitness_ignores_stale_positions] the store
    it is evaluated from does not matter. *)
Definition score (sheet_width sheet_height : Z) (part_list : list Part)
    (order : list nat) : result fitness_value :=
  value_of (fitness sheet_width sheet_height part_list order []).

(** The calls of a sequence that returned true. *)
Definition accepted_calls (calls : list (Part * Position)) (oks : list bool)
    : list (Part * Position) :=
  map fst (filter (fun co => co.2 = true) (zip calls oks)).
(** * Properties *)

Ltac unbox :=
  repeat match goal with
  | p : Part |- _ => destruct p as [? ? [[[? ?] ?] ?]]
  | p : Position |- _ => destruct p as [? ?]
  | p : BoundingBox |- _ => destruct p as [[[? ?] ?] ?]
  end.

Lemma check_overlap_unfold h part pos placed_part pos2 :
  position h placed_part = Ok pos2 ->
  check_overlap h part pos placed_part =
    let r1 := translated (bounding_box part) pos in
    let r2 := translated (bounding_box placed_part) pos2 in
    Ok (negb ((r_max_x r1 <=? r_min_x r2) || (r_min_x r1 >=? r_max_x r2) ||
              (r_max_y r1 <=? r_min_y r2) || (r_min_y r1 >=? r_max_y r2))).
Proof.
  intros Hp. unfold check_overlap. rewrite Hp. unbox. reflexivity.
Qed.

Lemma check_overlap_false h part pos placed_part pos2 :
  position h placed_part = Ok pos2 ->
  check_overlap h part pos placed_part = Ok false <->
  separated (translated (bounding_box part) pos)
            (translated (bounding_box placed_part) pos2).
Proof.
  intros Hp. rewrite (check_overlap_unfold _ _ _ _ _ Hp). cbv zeta.
  unfold separated.
  set (r1 := translated _ pos). set (r2 := translated _ pos2).
  split.
  - intros [= H]. apply negb_false_iff in H.
    repeat (apply orb_true_iff in H; destruct H as [H|H]); lia.
  - intros H. f_equal. apply negb_false_iff.
    repeat rewrite orb_true_iff. 
    destruct H as [H|[H|[H|H]]]; [left; left; left|left; left; right|left; right|right]; lia.
Qed.

Lemma check_overlap_total h part pos placed_part pos2 :
  position h placed_part = Ok pos2 ->
  exists b, check_overlap h part pos placed_part = Ok b.
Proof.
  intros Hp. rewrite (check_overlap_unfold _ _ _ _ _ Hp). eauto.
Qed.

Lemma separated_sym r1 r2 : separated r1 r2 -> separated r2 r1.
Proof. unfold separated. lia. Qed.

(** C9. [check_overlap] answers [False] (no intersection) exactly when the
    translated rectangle of the part is entirely left of, right of, below or
    above the one of the placed part, under
    [r1.max_x <= r2.min_x or r1.min_x >= r2.max_x or r1.max_y <= r2.min_y or
    r1.min_y >= r2.max_y]; it always answers when the placed part has a
    position.  In particular [[0,10]x[0,10]] and [[10,20]x[0,10]], which share
    one edge, do not overlap, whichever of the two is the placed one. *)
Theorem check_overlap_closed_open h part pos placed_part pos2 :
  position h placed_part = Ok pos2 ->
  let r1 := translated (bounding_box part) pos in
  let r2 := translated (bounding_box placed_part) pos2 in
  (exists b, check_overlap h part pos placed_part = Ok b /\
     (b = false <->
      (r_max_x r1 <= r_min_x r2 \/ r_min_x r1 >= r_max_x r2 \/
       r_max_y r1 <= r_min_y r2 \/ r_min_y r1 >= r_max_y r2))) /\
  (r1 = (0, 0, 10, 10) -> r2 = (10, 0, 20, 10) ->
   check_overlap h part pos placed_part = Ok false) /\
  (r1 = (10, 0, 20, 10) -> r2 = (0, 0, 10, 10) ->
   check_overlap h part pos placed_part = Ok false).
Proof.
  intros Hp r1 r2.
  pose proof (check_overlap_false h part pos placed_part pos2 Hp) as Hiff.
  fold r1 r2 in Hiff. unfold separated in Hiff.
  split; [|split].
  - destruct (check_overlap_total h part pos placed_part pos2 Hp) as [b Hb].
    exists b. split; [exact Hb|]. rewrite Hb in Hiff. rewrite <- Hiff.
    split; [intros ->; reflexivity|intros [= ->]; reflexivity].
  - intros E1 E2. apply Hiff. rewrite E1, E2. cbn. lia.
  - intros E1 E2. apply Hiff. rewrite E1, E2. cbn. lia.
Qed.

Lemma check_overlap_closed_open_witness :
  let p := mkPart 0 "a.dxf" (0, 0, 10, 10) in
  let q := mkPart 1 "b.dxf" (0, 0, 10, 10) in
  check_overlap [(q, (10, 0))] p (0, 0) q = Ok false.
Proof.
  intros p q.
  refine (proj1 (proj2 (check_overlap_closed_open [(q, (10, 0))] p (0, 0) q (10, 0) _)) _ _);
    reflexivity.
Defined.

(** ** [add_part] *)

Lemma add_part_accept h self part pos :
  can_place h self part pos = Ok true ->
  add_part self part pos h = Ok ((true, append_part self part), (part, pos) :: h).
Proof. intros H. unfold add_part, bind, read. rewrite H. reflexivity. Qed.

Lemma add_part_reject h self part pos :
  can_place h self part pos = Ok false ->
  add_part self part pos h = Ok ((false, self), h).
Proof. intros H. unfold add_part, bind, read. rewrite H. reflexivity. Qed.

Lemma position_newest h part pos : position ((part, pos) :: h) part = Ok pos.
Proof. cbn. rewrite decide_True; reflexivity. Qed.

Lemma position_older h part pos q :
  q <> part -> position ((part, pos) :: h) q = position h q.
Proof. intros H. cbn. rewrite decide_False; [reflexivity|congruence]. Qed.

(** C6. When [can_place] is false, [add_part] returns false and leaves the
    sheet and every part's position as they were; when it is true,
    [add_part] returns true, the part's position is the given one, the part
    is appended to the accepted list, and nothing else changes. *)
Theorem add_part_effect h self part pos :
  (can_place h self part pos = Ok false ->
   add_part self part pos h = Ok ((false, self), h)) /\
  (can_place h self part pos = Ok true ->
   exists self' h',
     add_part self part pos h = Ok ((true, self'), h') /\
     position h' part = Ok pos /\
     parts self' = parts self ++ [part] /\
     width self' = width self /\ height self' = height self /\
     (forall q, q <> part -> position h' q = position h q) /\
     assignments h' part = S (assignments h part)).
Proof.
  split.
  - apply add_part_reject.
  - intros H. exists (append_part self part), ((part, pos) :: h).
    split; [apply add_part_accept, H|].
    split; [apply position_newest|].
    repeat split.
    + intros q Hq. apply position_older, Hq.
    + unfold assignments. cbn. rewrite decide_True; reflexivity.
Qed.

Lemma add_part_effect_witness :
  let p := mkPart 0 "a.dxf" (0, 0, 10, 10) in
  let q := mkPart 1 "b.dxf" (0, 0, 10, 10) in
  let s := mkSheet 15 10 [p] in
  let h := [(p, (0, 0))] in
  add_part s q (0, 0) h = Ok ((false, s), h) /\
  exists s' h', add_part (new_Sheet 15 10) p (0, 0) [] = Ok ((true, s'), h') /\
                position h' p = Ok (0, 0) /\ parts s' = [p].
Proof.
  intros p q s h. split.
  - apply (proj1 (add_part_effect h s q (0, 0))). reflexivity.
  - destruct (proj2 (add_part_effect [] (new_Sheet 15 10) p (0, 0)) eq_refl)
      as (s' & h' & H1 & H2 & H3 & _).
    exists s', h'. auto.
Defined.

(** ** [can_place] *)

Lemma can_place_loop_total h part pos placed :
  (forall q, q ∈ placed -> exists p, position h q = Ok p) ->
  exists b, can_place_loop h part pos placed = Ok b.
Proof.
  induction placed as [|q placed IH]; intros Hpos; cbn; [eauto|].
  destruct (Hpos q) as [p Hp]; [left|].
  destruct (check_overlap_total h part pos q p Hp) as [b ->].
  destruct b; [eauto|]. apply IH. intros q' Hq'. apply Hpos. right. exact Hq'.
Qed.

Lemma can_place_total h self part pos :
  positioned h self -> exists b, can_place h self part pos = Ok b.
Proof.
  intros Hpos. unfold can_place. unbox. cbn.
  match goal with |- context [if ?c then _ else _] => destruct c end;
    [eauto|]. apply can_place_loop_total, Hpos.
Qed.

Lemma can_place_loop_true h part pos placed :
  can_place_loop h part pos placed = Ok true <->
  forall q, q ∈ placed -> check_overlap h part pos q = Ok false.
Proof.
  induction placed as [|q placed IH]; cbn.
  - split; [intros _ q Hq; inversion Hq|reflexivity].
  - destruct (check_overlap h part pos q) as [[|]|e] eqn:E.
    + split; [discriminate|]. intros H. specialize (H q). rewrite E in H.
      discriminate H. left.
    + rewrite IH. split.
      * intros H q' Hq'. apply elem_of_cons in Hq' as [->|Hq']; auto.
      * intros H q' Hq'. apply H. right. exact Hq'.
    + split; [discriminate|]. intros H. specialize (H q). rewrite E in H.
      discriminate H. left.
Qed.

Lemma can_place_true h self part pos :
  can_place h self part pos = Ok true <->
  inside self (translated (bounding_box part) pos) /\
  forall q, q ∈ parts self -> check_overlap h part pos q = Ok false.
Proof.
  unfold can_place, inside. rewrite <- can_place_loop_true.
  destruct part as [? ? [[[a b] c] d]], pos as [x y]. cbn.
  match goal with |- context [if ?c then _ else _] => destruct c eqn:E end.
  - split; [discriminate|]. intros [Hin _].
    repeat (apply orb_true_iff in E; destruct E as [E|E]); lia.
  - repeat (apply orb_false_iff in E; destruct E as [E ?]).
    split; [|tauto]. intros Hloop. split; [lia|exact Hloop].
Qed.

(** ** [range(0, stop, step)] *)

Lemma elem_of_py_range stop step x :
  0 < step ->
  x ∈ py_range stop step <-> 0 <= x < stop /\ x mod step = 0.
Proof.
  intros Hs. unfold py_range. rewrite list_elem_of_fmap.
  pose proof (Z.mul_div_le (stop + step - 1) step Hs) as Hq.
  split.
  - intros (k & -> & Hk). apply elem_of_seq in Hk.
    split; [|apply Z_mod_mult].
    assert (Z.of_nat k + 1 <= (stop + step - 1) / step) as Hlt by lia.
    split; [lia|]. nia.
  - intros [[H0 H1] Hm]. exists (Z.to_nat (x / step)).
    assert (x = x / step * step) as Hx.
    { rewrite (Z.div_mod x step) at 1 by lia. rewrite Hm. lia. }
    assert (0 <= x / step) by (apply Z.div_pos; lia).
    split; [rewrite Z2Nat.id by assumption; exact Hx|].
    apply elem_of_seq. split; [lia|].
    assert (x / step + 1 <= (stop + step - 1) / step); [|lia].
    apply Z.div_le_lower_bound; [assumption|]. nia.
Qed.

Lemma seq_strongly_sorted a n : StronglySorted lt (seq a n).
Proof.
  revert a. induction n as [|n IH]; intros a; cbn; constructor; [apply IH|].
  apply Forall_forall. intros k Hk. apply elem_of_seq in Hk. lia.
Qed.

Lemma py_range_sorted stop step :
  0 < step -> StronglySorted Z.lt (py_range stop step).
Proof.
  intros Hs. unfold py_range.
  apply StronglySorted_fmap with (R1 := lt); [|apply seq_strongly_sorted].
  intros a b Hab. nia.
Qed.

Lemma py_range_split stop step l1 x l2 :
  0 < step ->
  py_range stop step = l1 ++ x :: l2 ->
  (forall a, a ∈ l1 -> a < x) /\ (forall b, b ∈ l2 -> x < b).
Proof.
  intros Hs E. pose proof (py_range_sorted stop step Hs) as Hsorted.
  rewrite E in Hsorted. split.
  - intros a Ha. apply (StronglySorted_app_1_elem_of _ _ _ _ _ Hsorted Ha). left.
  - intros b Hb. apply StronglySorted_app_1_r in Hsorted.
    apply StronglySorted_cons in Hsorted as [Hall _].
    rewrite Forall_forall in Hall. apply Hall, Hb.
Qed.

(** ** The first-fit scan *)

Lemma scan_y_spec h sheet part x ys :
  positioned h sheet ->
  (exists ys1 y ys2,
     ys = ys1 ++ y :: ys2 /\
     (forall y', y' ∈ ys1 -> can_place h sheet part (x, y') = Ok false) /\
     can_place h sheet part (x, y) = Ok true /\
     scan_y sheet part x ys h
       = Ok ((true, append_part sheet part), (part, (x, y)) :: h)) \/
  ((forall y', y' ∈ ys -> can_place h sheet part (x, y') = Ok false) /\
   scan_y sheet part x ys h = Ok ((false, sheet), h)).
Proof.
  intros Hpos. induction ys as [|y ys IH].
  - right. split; [intros y' Hy'; inversion Hy'|reflexivity].
  - destruct (can_place_total h sheet part (x, y) Hpos) as [[|] Hb].
    + left. exists [], y, ys. split; [reflexivity|].
      split; [intros y' Hy'; inversion Hy'|]. split; [exact Hb|].
      cbn. unfold bind at 1. rewrite (add_part_accept _ _ _ _ Hb). reflexivity.
    + assert (scan_y sheet part x (y :: ys) h = scan_y sheet part x ys h) as E.
      { cbn. unfold bind at 1. rewrite (add_part_reject _ _ _ _ Hb). reflexivity. }
      rewrite E. destruct IH as [(ys1 & y0 & ys2 & -> & Hbefore & Hat & Hrun)|[Hnone Hrun]].
      * left. exists (y :: ys1), y0, ys2. split; [reflexivity|].
        split; [|auto]. intros y' Hy'. apply elem_of_cons in Hy' as [->|Hy']; auto.
      * right. split; [|exact Hrun].
        intros y' Hy'. apply elem_of_cons in Hy' as [->|Hy']; auto.
Qed.

Lemma scan_x_spec h sheet part xs ys :
  positioned h sheet ->
  (exists xs1 x xs2 ys1 y ys2,
     xs = xs1 ++ x :: xs2 /\ ys = ys1 ++ y :: ys2 /\
     (forall x' y', x' ∈ xs1 -> y' ∈ ys ->
        can_place h sheet part (x', y') = Ok false) /\
     (forall y', y' ∈ ys1 -> can_place h sheet part (x, y') = Ok false) /\
     can_place h sheet part (x, y) = Ok true /\
     scan_x sheet part xs ys h
       = Ok ((true, append_part sheet part), (part, (x, y)) :: h)) \/
  ((forall x' y', x' ∈ xs -> y' ∈ ys ->
      can_place h sheet part (x', y') = Ok false) /\
   scan_x sheet part xs ys h = Ok ((false, sheet), h)).
Proof.
  intros Hpos. induction xs as [|x xs IH].
  - right. split; [intros x' y' Hx'; inversion Hx'|reflexivity].
  - destruct (scan_y_spec h sheet part x ys Hpos)
      as [(ys1 & y & ys2 & Hys & Hbefore & Hat & Hrun)|[Hnone Hrun]].
    + left. exists [], x, xs, ys1, y, ys2. split; [reflexivity|].
      split; [exact Hys|]. split; [intros x' y' Hx'; inversion Hx'|].
      split; [exact Hbefore|]. split; [exact Hat|].
      cbn. unfold bind at 1. rewrite Hrun. reflexivity.
    + assert (scan_x sheet part (x :: xs) ys h = scan_x sheet part xs ys h) as E.
      { cbn. unfold bind at 1. rewrite Hrun. reflexivity. }
      rewrite E.
      destruct IH as [(xs1 & x0 & xs2 & ys1 & y & ys2 & -> & Hys & Hcols & Hbefore & Hat & Hrun')
                     |[Hnone' Hrun']].
      * left. exists (x :: xs1), x0, xs2, ys1, y, ys2. split; [reflexivity|].
        split; [exact Hys|]. split; [|auto].
        intros x' y' Hx' Hy'. apply elem_of_cons in Hx' as [->|Hx']; auto.
      * right. split; [|exact Hrun'].
        intros x' y' Hx' Hy'. apply elem_of_cons in Hx' as [->|Hx']; auto.
Qed.

Lemma first_fit_spec W H h sheet part :
  positioned h sheet ->
  (exists pos,
     on_lattice W H 10 pos /\
     can_place h sheet part pos = Ok true /\
     (forall pos', on_lattice W H 10 pos' ->
        can_place h sheet part pos' = Ok true -> scanned_before_or_at pos pos') /\
     first_fit W H sheet part h
       = Ok ((true, append_part sheet part), (part, pos) :: h)) \/
  ((forall pos', on_lattice W H 10 pos' ->
      can_place h sheet part pos' = Ok false) /\
   first_fit W H sheet part h = Ok ((false, sheet), h)).
Proof.
  intros Hpos. unfold first_fit, on_lattice.
  assert (0 < 10) as H10 by lia.
  destruct (scan_x_spec h sheet part (py_range W 10) (py_range H 10) Hpos)
    as [(xs1 & x & xs2 & ys1 & y & ys2 & Hxs & Hys & Hcols & Hbefore & Hat & Hrun)
       |[Hnone Hrun]].
  - left. exists (x, y).
    destruct (py_range_split _ _ _ _ _ H10 Hxs) as [Hx1 Hx2].
    destruct (py_range_split _ _ _ _ _ H10 Hys) as [Hy1 Hy2].
    split; [|split; [exact Hat|split; [|exact Hrun]]].
    + cbn. rewrite <- !elem_of_py_range by lia. rewrite Hxs, Hys.
      split; apply elem_of_app; right; left.
    + intros [x' y']. cbn. rewrite <- !elem_of_py_range by lia.
      intros [Hx' Hy'] Hfeasible. unfold scanned_before_or_at. cbn.
      rewrite Hxs in Hx'. apply elem_of_app in Hx' as [Hx'|Hx'].
      * rewrite (Hcols x' y' Hx' Hy') in Hfeasible. discriminate.
      * apply elem_of_cons in Hx' as [->|Hx']; [|left; auto].
        right. split; [reflexivity|].
        rewrite Hys in Hy'. apply elem_of_app in Hy' as [Hy'|Hy'].
        -- rewrite (Hbefore y' Hy') in Hfeasible. discriminate.
        -- apply elem_of_cons in Hy' as [->|Hy']; [lia|].
           specialize (Hy2 y' Hy'). lia.
  - right. split; [|exact Hrun].
    intros [x' y']. cbn. rewrite <- !elem_of_py_range by lia.
    intros [Hx' Hy']. auto.
Qed.

(** C5. The candidate search walks the offsets [x = 0, 10, ...] below the
    sheet width in the outer loop and [y = 0, 10, ...] below the sheet height
    in the inner loop, and commits the first one that [can_place] accepts:
    when some lattice offset is feasible the part is placed at the feasible
    offset that comes first in this order, the lexicographically smallest
    [(x, y)]; when none is, nothing is placed and nothing changes. *)
Theorem first_fit_lexicographically_smallest h sheet part :
  positioned h sheet ->
  let W := width sheet in
  let H := height sheet in
  (exists pos,
     on_lattice W H 10 pos /\
     can_place h sheet part pos = Ok true /\
     (forall pos', on_lattice W H 10 pos' ->
        can_place h sheet part pos' = Ok true ->
        pos.1 < pos'.1 \/ (pos.1 = pos'.1 /\ pos.2 <= pos'.2)) /\
     first_fit W H sheet part h
       = Ok ((true, append_part sheet part), (part, pos) :: h)) \/
  ((forall pos', on_lattice W H 10 pos' ->
      can_place h sheet part pos' = Ok false) /\
   first_fit W H sheet part h = Ok ((false, sheet), h)).
Proof.
  intros Hpos W H. exact (first_fit_spec W H h sheet part Hpos).
Qed.

Lemma first_fit_lexicographically_smallest_witness :
  let a := mkPart 0 "a.dxf" (0, 0, 10, 10) in
  let b := mkPart 1 "b.dxf" (0, 0, 15, 10) in
  let s := mkSheet 25 10 [a] in
  let h := [(a, (0, 0))] in
  positioned h s /\
  first_fit 25 10 s b h = Ok ((true, append_part s b), (b, (10, 0)) :: h).
Proof.
  intros a b s h.
  assert (positioned h s) as Hpos.
  { intros q Hq. apply list_elem_of_singleton in Hq as ->.
    exists (0, 0). vm_compute. reflexivity. }
  split; [exact Hpos|].
  destruct (first_fit_lexicographically_smallest h s b Hpos)
    as [(pos & _ & _ & _ & Hrun)|[_ Hrun]].
  - change (width s) with 25 in Hrun. change (height s) with 10 in Hrun.
    rewrite Hrun. vm_compute in Hrun. injection Hrun as <-. reflexivity.
  - vm_compute in Hrun. discriminate Hrun.
Defined.

Lemma positioned_new_Sheet h W H : positioned h (new_Sheet W H).
Proof. intros q Hq. inversion Hq. Qed.

Lemma positioned_accept h self part pos :
  positioned h self -> positioned ((part, pos) :: h) (append_part self part).
Proof.
  intros Hpos q Hq. destruct (decide (q = part)) as [->|Hne].
  - exists pos. apply position_newest.
  - rewrite position_older by assumption. apply Hpos.
    cbn in Hq. apply elem_of_app in Hq as [Hq|Hq]; [exact Hq|].
    apply list_elem_of_singleton in Hq. contradiction.
Qed.

(** What one scan does to the sheet and the store, whatever its outcome. *)
Lemma first_fit_cases W H h sheet part :
  positioned h sheet ->
  (exists pos, first_fit W H sheet part h
                 = Ok ((true, append_part sheet part), (part, pos) :: h) /\
               can_place h sheet part pos = Ok true) \/
  first_fit W H sheet part h = Ok ((false, sheet), h).
Proof.
  intros Hpos.
  destruct (first_fit_spec W H h sheet part Hpos) as [(pos & _ & Hat & _ & Hrun)|[_ Hrun]];
    [left; exists pos; auto|right; exact Hrun].
Qed.

(** ** [fitness] *)

Section Fitness.

Variables sheet_width sheet_height : Z.
Variable part_list : list Part.

Lemma fitness_loop_cons sheet index rest h part :
  part_list !! index = Some part ->
  fitness_loop sheet_width sheet_height part_list sheet (index :: rest) h =
    match first_fit sheet_width sheet_height sheet part h with
    | Ok ((true, sheet'), h') =>
      fitness_loop sheet_width sheet_height part_list sheet' rest h'
    | Ok ((false, _), h') => Ok (Infinity, h')
    | Raise e => Raise e
    end.
Proof.
  intros Hpart. cbn. unfold bind, subscript. rewrite Hpart. cbn.
  destruct (first_fit _ _ _ _ _) as [[[[|] ?] ?]|]; reflexivity.
Qed.

Lemma fitness_loop_value order : forall sheet h,
  positioned h sheet ->
  (forall i, i ∈ order -> (i < length part_list)%nat) ->
  exists h',
    (fitness_loop sheet_width sheet_height part_list sheet order h = Ok (Infinity, h') /\
     (length h' < length h + length order)%nat) \/
    (fitness_loop sheet_width sheet_height part_list sheet order h
       = Ok (Finite (length (parts sheet) + length order), h') /\
     length h' = (length h + length order)%nat).
Proof.
  induction order as [|index rest IH]; intros sheet h Hpos Hidx.
  - exists h. right. cbn. unfold ret. rewrite !Nat.add_0_r. auto.
  - destruct (lookup_lt_is_Some_2 part_list index) as [part Hpart].
    { apply Hidx. left. }
    rewrite (fitness_loop_cons _ _ _ _ _ Hpart).
    destruct (first_fit_cases sheet_width sheet_height h sheet part Hpos)
      as [(pos & -> & _)| ->].
    + destruct (IH (append_part sheet part) ((part, pos) :: h)) as [h' Hh'].
      { apply positioned_accept, Hpos. }
      { intros i Hi. apply Hidx. right. exact Hi. }
      exists h'. cbn in Hh'. rewrite length_app in Hh'. cbn in Hh'.
      replace (length (parts sheet) + length (index :: rest))%nat
        with (length (parts sheet) + 1 + length rest)%nat by (cbn; lia).
      cbn [length]. destruct Hh' as [[E Hl]|[E Hl]]; [left|right]; (split; [exact E|lia]).
    + exists h. left. split; [reflexivity|cbn; lia].
Qed.

Lemma fitness_cases order h :
  order ≡ₚ seq 0 (length part_list) ->
  exists h',
    (fitness sheet_width sheet_height part_list order h = Ok (Infinity, h') /\
     (length h' < length h + length part_list)%nat) \/
    (fitness sheet_width sheet_height part_list order h
       = Ok (Finite (length part_list), h') /\
     length h' = (length h + length part_list)%nat).
Proof.
  intros Hperm. unfold fitness.
  destruct (fitness_loop_value order (new_Sheet sheet_width sheet_height) h) as [h' Hh'].
  - apply positioned_new_Sheet.
  - intros i Hi. rewrite Hperm in Hi. apply elem_of_seq in Hi. lia.
  - exists h'. cbn in Hh'. rewrite (Permutation_length Hperm), length_seq in Hh'.
    exact Hh'.
Qed.

End Fitness.

Lemma named_cons part_list index rest part :
  part_list !! index = Some part ->
  named part_list (index :: rest) = part :: named part_list rest.
Proof. intros H. unfold named. cbn. rewrite H. reflexivity. Qed.

Lemma sheet_eta (sheet : Sheet) :
  mkSheet (width sheet) (height sheet) (parts sheet) = sheet.
Proof. destruct sheet. reflexivity. Qed.

Section FitnessTrace.

Variables sheet_width sheet_height : Z.
Variable part_list : list Part.

(** What an evaluation did, part by part: either it stopped at a part that
    [can_place] rejects at every offset of the lattice, the parts before it
    being placed, or it placed every part, each at an offset that [can_place]
    accepted when its turn came. *)
Lemma fitness_loop_trace order : forall sheet h,
  positioned h sheet ->
  width sheet = sheet_width -> height sheet = sheet_height ->
  (forall i, i ∈ order -> (i < length part_list)%nat) ->
  exists h',
    (fitness_loop sheet_width sheet_height part_list sheet order h = Ok (Infinity, h') /\
     exists done index rest part,
       order = done ++ index :: rest /\ part_list !! index = Some part /\
       length h' = (length h + length done)%nat /\
       drop (length done) h' = h /\
       forall pos, on_lattice sheet_width sheet_height 10 pos ->
         can_place h' (mkSheet sheet_width sheet_height
                         (parts sheet ++ named part_list done)) part pos
         = Ok false) \/
    (fitness_loop sheet_width sheet_height part_list sheet order h
       = Ok (Finite (length (parts sheet) + length order), h') /\
     length h' = (length h + length order)%nat /\
     drop (length order) h' = h /\
     forall done index rest part,
       order = done ++ index :: rest -> part_list !! index = Some part ->
       exists pos,
         h' !! length rest = Some (part, pos) /\
         on_lattice sheet_width sheet_height 10 pos /\
         can_place (drop (S (length rest)) h')
           (mkSheet sheet_width sheet_height (parts sheet ++ named part_list done))
           part pos = Ok true).
Proof.
  induction order as [|index rest0 IH]; intros sheet h Hpos Hw Hh Hidx.
  - exists h. right. cbn. unfold ret. rewrite !Nat.add_0_r.
    split; [reflexivity|]. split; [reflexivity|]. split; [reflexivity|].
    intros [|? ?] ? ? ? Hsplit; discriminate Hsplit.
  - destruct (lookup_lt_is_Some_2 part_list index) as [part0 Hpart0].
    { apply Hidx. left. }
    rewrite (fitness_loop_cons _ _ _ _ _ _ _ _ Hpart0).
    assert (mkSheet sheet_width sheet_height (parts sheet ++ []) = sheet) as Hsheet.
    { rewrite app_nil_r, <- Hw, <- Hh. apply sheet_eta. }
    destruct (first_fit_spec sheet_width sheet_height h sheet part0 Hpos)
      as [(pos0 & Hlat0 & Hcan0 & _ & ->)|[Hnone ->]].
    + destruct (IH (append_part sheet part0) ((part0, pos0) :: h)) as [h' Hh'].
      { apply positioned_accept, Hpos. }
      { exact Hw. } { exact Hh. }
      { intros i Hi. apply Hidx. right. exact Hi. }
      exists h'. cbn [parts append_part] in Hh'.
      destruct Hh' as [(Hrun & done & idx & rest & part & -> & Hpart & Hlen & Hdrop & Hrej)
                      |(Hrun & Hlen & Hdrop & Hacc)].
      * left. split; [exact Hrun|].
        exists (index :: done), idx, rest, part. split; [reflexivity|].
        split; [exact Hpart|]. split; [cbn in *; lia|]. split.
        { cbn [length]. rewrite <- (Nat.add_1_r (length done)), <- drop_drop, Hdrop.
          reflexivity. }
        intros pos Hlat. rewrite (named_cons _ _ _ _ Hpart0).
        rewrite <- app_assoc in Hrej. apply Hrej, Hlat.
      * right. split.
        { rewrite Hrun. do 3 f_equal. rewrite length_app. cbn. lia. }
        split; [cbn in *; lia|]. split.
        { cbn [length]. rewrite <- (Nat.add_1_r (length rest0)), <- drop_drop, Hdrop.
          reflexivity. }
        intros done idx rest part Hsplit Hpart.
        destruct done as [|index' done]; cbn in Hsplit; injection Hsplit as -> ->.
        -- rewrite Hpart0 in Hpart. injection Hpart as <-. exists pos0.
           split. { pose proof (lookup_drop h' (length rest) 0) as Hlook.
                    rewrite Hdrop, Nat.add_0_r in Hlook. symmetry. exact Hlook. }
           split; [exact Hlat0|].
           rewrite <- (Nat.add_1_r (length rest)), <- drop_drop, Hdrop. cbn [drop].
           change (named part_list []) with (@nil Part).
           rewrite Hsheet. exact Hcan0.
        -- destruct (Hacc done idx rest part eq_refl Hpart) as (pos & Hlook & Hlat & Hcan).
           exists pos. split; [exact Hlook|]. split; [exact Hlat|].
           rewrite (named_cons _ _ _ _ Hpart0). rewrite <- app_assoc in Hcan. exact Hcan.
    + exists h. left. split; [reflexivity|].
      exists [], index, rest0, part0. split; [reflexivity|]. split; [exact Hpart0|].
      split; [cbn; lia|]. split; [reflexivity|].
      intros pos Hlat. change (named part_list []) with (@nil Part). rewrite Hsheet.
      apply Hnone, Hlat.
Qed.

End FitnessTrace.

(** C2. On a permutation of the [n] part indices, [fitness] never raises and
    returns either [float('inf')] or exactly [n], no other number.  It returns
    [inf] with the parts before some part of the order placed and that part
    rejected by [can_place] at every offset of the step-10 lattice; it
    returns [n] having placed each of the [n] parts, in order, at a lattice
    offset that [can_place] accepted on the sheet of the parts before it. *)
Theorem fitness_infinite_or_n sheet_width sheet_height part_list order h :
  order ≡ₚ seq 0 (length part_list) ->
  exists h',
    (fitness sheet_width sheet_height part_list order h = Ok (Infinity, h') /\
     exists done index rest part,
       order = done ++ index :: rest /\ part_list !! index = Some part /\
       length h' = (length h + length done)%nat /\
       forall pos, on_lattice sheet_width sheet_height 10 pos ->
         can_place h' (mkSheet sheet_width sheet_height (named part_list done)) part pos
         = Ok false) \/
    (fitness sheet_width sheet_height part_list order h
       = Ok (Finite (length part_list), h') /\
     length h' = (length h + length part_list)%nat /\
     forall done index rest part,
       order = done ++ index :: rest -> part_list !! index = Some part ->
       exists pos,
         h' !! length rest = Some (part, pos) /\
         on_lattice sheet_width sheet_height 10 pos /\
         can_place (drop (S (length rest)) h')
           (mkSheet sheet_width sheet_height (named part_list done)) part pos
         = Ok true).
Proof.
  intros Hperm. unfold fitness.
  assert (length order = length part_list) as Hlen
    by (rewrite (Permutation_length Hperm); apply length_seq).
  destruct (fitness_loop_trace sheet_width sheet_height part_list order
              (new_Sheet sheet_width sheet_height) h) as [h' Hh'].
  - apply positioned_new_Sheet.
  - reflexivity.
  - reflexivity.
  - intros i Hi. rewrite Hperm in Hi. apply elem_of_seq in Hi. lia.
  - exists h'. cbn [parts new_Sheet app length] in Hh'. rewrite Hlen in Hh'.
    destruct Hh' as [(Hrun & done & idx & rest & part & Hsplit & Hpart & Hl & _ & Hrej)
                    |(Hrun & Hl & _ & Hacc)].
    + left. split; [exact Hrun|]. exists done, idx, rest, part. auto.
    + right. auto.
Qed.

Lemma fitness_infinite_or_n_witness :
  let parts := [mkPart 0 "a.dxf" (0, 0, 10, 10); mkPart 1 "b.dxf" (0, 0, 15, 10)] in
  (exists h', fitness 25 10 parts [1; 0]%nat [] = Ok (Infinity, h')) /\
  (exists h', fitness 25 10 parts [0; 1]%nat [] = Ok (Finite 2, h')).
Proof.
  intros parts. split.
  - destruct (fitness_infinite_or_n 25 10 parts [1; 0]%nat []) as [h' [[E _]|[E _]]].
    + cbn. apply perm_swap.
    + exists h'. exact E.
    + vm_compute in E. discriminate E.
  - destruct (fitness_infinite_or_n 25 10 parts [0; 1]%nat []) as [h' [[E _]|[E _]]].
    + reflexivity.
    + vm_compute in E. discriminate E.
    + exists h'. exact E.
Defined.

(** ** The invariant of a sheet *)

Lemma contained_positioned h self : contained h self -> positioned h self.
Proof. intros Hc q Hq. destruct (Hc q Hq) as (pos & Hp & _). eauto. Qed.

Lemma check_overlap_same_position h h' part pos q :
  position h' q = position h q ->
  check_overlap h' part pos q = check_overlap h part pos q.
Proof. intros E. unfold check_overlap. rewrite E. reflexivity. Qed.

Lemma invariant_new_Sheet h W H : sheet_invariant_objects h (new_Sheet W H).
Proof. split; [intros q Hq|intros qi qj Hq]; inversion Hq. Qed.

Lemma invariant_accept h self part pos :
  sheet_invariant_objects h self ->
  can_place h self part pos = Ok true ->
  sheet_invariant_objects ((part, pos) :: h) (append_part self part).
Proof.
  intros [Hc Hd] Hcan. apply can_place_true in Hcan as [Hin Hfree].
  assert (forall q, q ∈ parts (append_part self part) -> q <> part -> q ∈ parts self)
    as Hold.
  { intros q Hq Hne. cbn in Hq. apply elem_of_app in Hq as [Hq|Hq]; [exact Hq|].
    apply list_elem_of_singleton in Hq. contradiction. }
  split.
  - intros q Hq. destruct (decide (q = part)) as [->|Hne].
    + exists pos. split; [apply position_newest|exact Hin].
    + rewrite position_older by assumption. apply Hc, Hold; assumption.
  - intros qi qj Hqi Hqj Hne.
    destruct (decide (qi = part)) as [->|Hi].
    + exists pos. split; [apply position_newest|].
      rewrite check_overlap_same_position with (h := h)
        by (apply position_older; congruence).
      apply Hfree, Hold; [assumption|congruence].
    + pose proof (Hold qi Hqi Hi) as Hqi'.
      destruct (Hc qi Hqi') as (pi & Hpi & _).
      exists pi. split; [rewrite position_older by assumption; exact Hpi|].
      destruct (decide (qj = part)) as [->|Hj].
      * apply (check_overlap_false _ _ _ _ pos (position_newest h part pos)).
        apply separated_sym.
        apply (check_overlap_false h part pos qi pi Hpi). apply Hfree, Hqi'.
      * rewrite check_overlap_same_position with (h := h)
          by (apply position_older; assumption).
        destruct (Hd qi qj Hqi' (Hold qj Hqj Hj) Hne) as (pi' & Hpi' & Hov).
        rewrite Hpi in Hpi'. injection Hpi' as <-. exact Hov.
Qed.

(** One call of [add_part] keeps the invariant, whatever it returns. *)
Lemma add_part_invariant h self part pos :
  sheet_invariant_objects h self ->
  exists ok self' h',
    add_part self part pos h = Ok ((ok, self'), h') /\
    sheet_invariant_objects h' self' /\
    width self' = width self /\ height self' = height self /\
    (parts self' = parts self \/ parts self' = parts self ++ [part]).
Proof.
  intros Hinv.
  destruct (can_place_total h self part pos) as [[|] Hcan].
  { apply contained_positioned, Hinv. }
  - exists true, (append_part self part), ((part, pos) :: h).
    split; [apply add_part_accept, Hcan|].
    split; [apply invariant_accept; assumption|]. cbn. auto.
  - exists false, self, h. split; [apply add_part_reject, Hcan|]. auto.
Qed.


Lemma objects_entries_disjoint h self :
  NoDup (parts self) -> objects_disjoint h self -> entries_disjoint h self.
Proof.
  intros Hnd Hd i j qi qj Hij Hi Hj. apply Hd.
  - apply list_elem_of_lookup. eauto.
  - apply list_elem_of_lookup. eauto.
  - intros ->. apply Hij. exact (NoDup_lookup _ _ _ _ Hnd Hi Hj).
Qed.

Lemma passes_bounds_test_inside self part pos :
  passes_bounds_test self part pos <-> inside self (translated (bounding_box part) pos).
Proof.
  unfold passes_bounds_test. rewrite can_place_true. unfold inside. cbn. split.
  - intros [H _]. exact H.
  - intros H. split; [exact H|]. intros q Hq. inversion Hq.
Qed.

Lemma accepted_in_bounds_contained h self :
  accepted_in_bounds h self <-> contained h self.
Proof.
  unfold accepted_in_bounds, contained.
  split; intros H q Hq; destruct (H q Hq) as (pos & Hpos & Hin); exists pos;
    (split; [exact Hpos|]); apply passes_bounds_test_inside; exact Hin.
Qed.






(** ** The random source *)

Section RandomFacts.

Variable rnd : nat -> Z.

Lemma randbelow_run n s :
  exists j, randbelow rnd n s = Ok (j, mkState (S (cursor s)) (store s)) /\
            ((0 < n)%nat -> (j < n)%nat).
Proof.
  eexists. split; [reflexivity|]. intros Hn.
  pose proof (Z.mod_pos_bound (rnd (cursor s)) (Z.of_nat n)). lia.
Qed.

Lemma randint_run a b s :
  a <= b ->
  exists v s', randint rnd a b s = Ok (v, s') /\ a <= v <= b /\ store s' = store s.
Proof.
  intros Hab. unfold randint. destruct (Z.ltb_spec b a) as [|_]; [lia|].
  unfold bind. destruct (randbelow_run (Z.to_nat (b - a + 1)) s) as (j & -> & Hj).
  eexists _, _. split; [reflexivity|]. cbn. split; [lia|reflexivity].
Qed.

Lemma randint_empty a b s : b < a -> randint rnd a b s = Raise ValueError.
Proof.
  intros Hab. unfold randint. destruct (Z.ltb_spec b a) as [_|]; [reflexivity|lia].
Qed.

Lemma sample_loop_run {A} k : forall (pool : list A) s,
  (k <= length pool)%nat ->
  exists l rest s',
    sample_loop rnd pool k s = Ok (l, s') /\
    length l = k /\ l ++ rest ≡ₚ pool /\ store s' = store s.
Proof.
  induction k as [|k IH]; intros pool s Hk.
  - exists [], pool, s. repeat split; reflexivity.
  - change (sample_loop rnd pool (S k))
      with (j <- randbelow rnd (length pool) ;;
            x <- subscript pool j ;;
            rest <- sample_loop rnd (delete j pool) k ;;
            ret (x :: rest)).
    unfold bind at 1.
    destruct (randbelow_run (length pool) s) as (j & -> & Hj).
    destruct (lookup_lt_is_Some_2 pool j) as [x Hx]; [lia|].
    unfold bind at 1. unfold subscript. rewrite Hx. cbn. unfold bind.
    destruct (IH (delete j pool) (mkState (S (cursor s)) (store s)))
      as (l & rest & s' & -> & Hlen & Hperm & Hstore).
    { rewrite length_delete by eauto. lia. }
    exists (x :: l), rest, s'. split; [reflexivity|].
    split; [cbn; lia|]. split; [|exact Hstore].
    cbn. rewrite Hperm. symmetry. apply delete_Permutation, Hx.
Qed.

Lemma random_sample_run {A} (population : list A) k s :
  (k <= length population)%nat ->
  exists l rest s',
    random_sample rnd population k s = Ok (l, s') /\
    length l = k /\ l ++ rest ≡ₚ population /\ store s' = store s.
Proof.
  intros Hk. unfold random_sample.
  destruct (Nat.ltb_spec (length population) k) as [|_]; [lia|].
  apply sample_loop_run, Hk.
Qed.

Lemma random_sample_too_large {A} (population : list A) k s :
  (length population < k)%nat ->
  random_sample rnd population k s = Raise ValueError.
Proof.
  intros Hk. unfold random_sample.
  destruct (Nat.ltb_spec (length population) k) as [_|]; [reflexivity|lia].
Qed.

End RandomFacts.

(** ** [crossover] and [mutate] *)

Lemma swap_Permutation {A} (l : list A) i j x y :
  l !! i = Some x -> l !! j = Some y -> <[j := x]> (<[i := y]> l) ≡ₚ l.
Proof.
  intros Hi Hj.
  pose proof (lookup_lt_Some _ _ _ Hi) as Hli.
  pose proof (lookup_lt_Some _ _ _ Hj) as Hlj.
  apply Permutation_inj. split; [rewrite !length_insert; reflexivity|].
  exists (fun k => if decide (k = i) then j else if decide (k = j) then i else k).
  split.
  - intros a b. repeat case_decide; lia.
  - intros k. destruct (decide (k = j)) as [->|Hkj].
    + rewrite list_lookup_insert_eq by (rewrite length_insert; exact Hlj).
      destruct (decide (j = i)) as [->|_]; congruence.
    + rewrite list_lookup_insert_ne by congruence.
      destruct (decide (k = i)) as [->|Hki].
      * rewrite list_lookup_insert_eq by exact Hli. congruence.
      * rewrite list_lookup_insert_ne by congruence. reflexivity.
Qed.

Lemma crossover_child_Permutation (parent1 parent2 : list nat) k :
  NoDup parent1 -> parent1 ≡ₚ parent2 ->
  take k parent1 ++ filter (fun x => x ∉ take k parent1) parent2 ≡ₚ parent2.
Proof.
  intros Hnd Hperm.
  assert (NoDup parent2) as Hnd2 by (rewrite <- Hperm; exact Hnd).
  assert (NoDup (take k parent1)) as Hndp.
  { rewrite <- (take_drop k parent1) in Hnd. apply NoDup_app in Hnd. tauto. }
  apply NoDup_Permutation.
  - apply NoDup_app. split; [exact Hndp|]. split; [|apply NoDup_filter, Hnd2].
    intros x Hx Hf. apply list_elem_of_filter in Hf as [Hnot _]. contradiction.
  - exact Hnd2.
  - intros x. rewrite elem_of_app, list_elem_of_filter. split.
    + intros [Hx|[_ Hx]]; [|exact Hx].
      rewrite <- Hperm. rewrite <- (take_drop k parent1). apply elem_of_app. auto.
    + intros Hx. destruct (decide (x ∈ take k parent1)); auto.
Qed.

Section Reproduction.

Variable rnd : nat -> Z.
Variable mutation_rate : Q.

Lemma crossover_run parent1 parent2 s :
  (2 <= length parent1)%nat ->
  exists child s',
    crossover rnd parent1 parent2 s = Ok (child, s') /\
    (NoDup parent1 -> parent1 ≡ₚ parent2 -> child ≡ₚ parent2) /\
    store s' = store s.
Proof.
  intros Hlen. unfold crossover, bind.
  destruct (randint_run rnd 1 (Z.of_nat (length parent1) - 1) s)
    as (v & s' & -> & Hv & Hstore); [lia|].
  eexists _, s'. split; [reflexivity|]. split; [|exact Hstore].
  apply crossover_child_Permutation.
Qed.

Lemma crossover_raises parent1 parent2 s :
  (length parent1 < 2)%nat ->
  crossover rnd parent1 parent2 s = Raise ValueError.
Proof.
  intros Hlen. unfold crossover, bind. rewrite randint_empty by lia. reflexivity.
Qed.

Lemma mutate_run order s :
  (2 <= length order)%nat ->
  exists order' s',
    mutate rnd mutation_rate order s = Ok (order', s') /\
    order' ≡ₚ order /\ store s' = store s.
Proof.
  intros Hlen. unfold mutate. unfold bind at 1. cbn.
  destruct (Qlt_bool _ _).
  - unfold bind at 1.
    destruct (random_sample_run rnd (seq 0 (length order)) 2
                (mkState (S (cursor s)) (store s)))
      as (ij & rest & s' & -> & Hij & Hperm & Hstore).
    { rewrite length_seq. exact Hlen. }
    destruct ij as [|i [|j [|? ?]]]; try discriminate Hij.
    assert (i ∈ seq 0 (length order) /\ j ∈ seq 0 (length order)) as [Hi Hj].
    { rewrite <- Hperm. split; [left|right; left]. }
    apply elem_of_seq in Hi, Hj.
    destruct (lookup_lt_is_Some_2 order i) as [oi Hoi]; [lia|].
    destruct (lookup_lt_is_Some_2 order j) as [oj Hoj]; [lia|].
    unfold bind, subscript. rewrite Hoj, Hoi. cbn.
    eexists _, s'. split; [reflexivity|]. split; [|exact Hstore].
    apply swap_Permutation; assumption.
  - exists order, (mkState (S (cursor s)) (store s)). auto.
Qed.

End Reproduction.

(** C8. For parents that are permutations of [[0, n)], and whatever the
    random source draws for the cut point and for the mutation, the child
    that [crossover] followed by [mutate] yields is a permutation of
    [[0, n)]: no index is duplicated or missing.  A child is yielded whenever
    [n >= 2]; for smaller [n] the cut point cannot be drawn and the call
    raises. *)
Theorem crossover_mutate_permutation rnd mutation_rate n parent1 parent2 s :
  parent1 ≡ₚ seq 0 n -> parent2 ≡ₚ seq 0 n ->
  match (child <- crossover rnd parent1 parent2 ;;
         mutate rnd mutation_rate child) s with
  | Ok (child, _) => child ≡ₚ seq 0 n
  | Raise _ => (n < 2)%nat
  end.
Proof.
  intros H1 H2.
  assert (length parent1 = n) as Hlen1
    by (rewrite (Permutation_length H1); apply length_seq).
  destruct (le_lt_dec 2 n) as [Hn|Hn].
  - destruct (crossover_run rnd parent1 parent2 s) as (child & s1 & Hrun & Hperm & _);
      [lia|].
    assert (child ≡ₚ seq 0 n) as Hchild.
    { rewrite <- H2. apply Hperm; [|rewrite H1, H2; reflexivity].
      rewrite H1. apply NoDup_seq. }
    destruct (mutate_run rnd mutation_rate child s1) as (child' & s2 & Hrun' & Hperm' & _).
    { rewrite (Permutation_length Hchild), length_seq. exact Hn. }
    unfold bind. rewrite Hrun, Hrun'. rewrite Hperm'. exact Hchild.
  - unfold bind. rewrite crossover_raises by lia. exact Hn.
Qed.

Lemma crossover_mutate_permutation_witness :
  match (child <- crossover (fun _ => 1) [0; 1; 2]%nat [2; 1; 0]%nat ;;
         mutate (fun _ => 1) (1 # 10) child) initial_state with
  | Ok (child, _) => child ≡ₚ seq 0 3
  | Raise _ => (3 < 2)%nat
  end.
Proof.
  apply crossover_mutate_permutation.
  - reflexivity.
  - symmetry. exact (Permutation_rev [0; 1; 2]%nat).
Defined.

(** ** Rules for runs that return *)

Lemma returns_ret {S A} (a : A) (s : S) (Q : A -> S -> Prop) :
  Q a s -> returns (ret a) s Q.
Proof. intros H. exists a, s. split; [reflexivity|exact H]. Qed.

Lemma returns_bind {S A B} (m : M S A) (f : A -> M S B) s (Q : B -> S -> Prop) :
  returns m s (fun a s' => returns (f a) s' Q) -> returns (bind m f) s Q.
Proof.
  intros (a & s' & Hm & b & s'' & Hf & HQ). exists b, s''.
  split; [|exact HQ]. unfold bind. rewrite Hm. exact Hf.
Qed.

Lemma returns_mono {S A} (m : M S A) s (Q Q' : A -> S -> Prop) :
  returns m s Q -> (forall a s', Q a s' -> Q' a s') -> returns m s Q'.
Proof. intros (a & s' & Hm & HQ) Himp. exists a, s'. auto. Qed.

Lemma returns_subscript {S A} (l : list A) i (s : S) (Q : A -> S -> Prop) :
  (i < length l)%nat -> (forall a, l !! i = Some a -> Q a s) ->
  returns (subscript l i) s Q.
Proof.
  intros Hi HQ. destruct (lookup_lt_is_Some_2 l i Hi) as [a Ha].
  exists a, s. unfold subscript. rewrite Ha. split; [reflexivity|auto].
Qed.

Lemma returns_on_store {A} (m : M Store A) s (Q : A -> State -> Prop) :
  returns m (store s) (fun a h => Q a (mkState (cursor s) h)) ->
  returns (on_store m) s Q.
Proof.
  intros (a & h & Hm & HQ). exists a, (mkState (cursor s) h).
  unfold on_store. rewrite Hm. auto.
Qed.

Lemma returns_for_each {S A B} (f : A -> M S B) (Q : A -> B -> Prop)
    (I : S -> Prop) l : forall s,
  I s ->
  (forall x s, x ∈ l -> I s -> returns (f x) s (fun y s' => Q x y /\ I s')) ->
  returns (for_each f l) s (fun ys s' => Forall2 Q l ys /\ I s').
Proof.
  induction l as [|x l IH]; intros s Hs Hf.
  - apply returns_ret. auto.
  - cbn. apply returns_bind.
    apply (returns_mono _ _ _ _ (Hf x s ltac:(left) Hs)).
    intros y s1 [Hy Hs1]. apply returns_bind.
    eapply returns_mono; [apply (IH s1 Hs1)|].
    + intros x' s' Hx'. apply Hf. right. exact Hx'.
    + intros ys s2 [Hys Hs2]. apply returns_ret. auto.
Qed.

(** ** Sorting by key *)

Lemma insert_by_key_Permutation {A} (x : fitness_value * A) l :
  insert_by_key x l ≡ₚ x :: l.
Proof.
  induction l as [|y l IH]; cbn; [reflexivity|].
  destruct (fitness_le x.1 y.1); [reflexivity|].
  rewrite IH. apply perm_swap.
Qed.

Lemma sort_by_key_Permutation {A} (l : list (fitness_value * A)) :
  sort_by_key l ≡ₚ l.
Proof.
  induction l as [|x l IH]; cbn; [reflexivity|].
  rewrite insert_by_key_Permutation, IH. reflexivity.
Qed.

Lemma sorted_population_Permutation (keys : list fitness_value)
    (population : list (list nat)) :
  length keys = length population ->
  map snd (sort_by_key (zip keys population)) ≡ₚ population.
Proof.
  intros Hlen. rewrite sort_by_key_Permutation.
  change (map snd (zip keys population)) with ((zip keys population).*2).
  rewrite snd_zip by lia. reflexivity.
Qed.

(** ** The populations of the optimizer *)

Section Optimizer.

Variable rnd : nat -> Z.
Variables sheet_width sheet_height : Z.
Variable part_list : list Part.
Variables population_size generations : nat.
Variable mutation_rate : Q.

Abbreviation valid := (valid_individual (length part_list)).
Abbreviation fitness' := (fitness sheet_width sheet_height part_list).

Lemma fitness_returns order s :
  valid order ->
  returns (on_store (fitness' order)) s
    (fun f _ => f = Infinity \/ f = Finite (length part_list)).
Proof.
  intros Hv. apply returns_on_store.
  destruct (fitness_cases sheet_width sheet_height part_list order (store s) Hv)
    as [h' [[E _]|[E _]]]; eexists _, h'; (split; [exact E|auto]).
Qed.

Lemma valid_sample s :
  returns (random_sample rnd (seq 0 (length part_list)) (length part_list)) s
    (fun order _ => valid order).
Proof.
  destruct (random_sample_run rnd (seq 0 (length part_list)) (length part_list) s)
    as (l & rest & s' & Hrun & Hlen & Hperm & _).
  { rewrite length_seq. lia. }
  exists l, s'. split; [exact Hrun|].
  assert (rest = []) as ->.
  { apply Permutation_length in Hperm. rewrite length_app, length_seq in Hperm.
    apply nil_length_inv. lia. }
  rewrite app_nil_r in Hperm. exact Hperm.
Qed.

Lemma initialize_population_returns s :
  returns (initialize_population rnd part_list population_size) s
    (fun population _ =>
       length population = population_size /\ Forall valid population).
Proof.
  unfold initialize_population.
  eapply returns_mono.
  - apply (returns_for_each _ (fun _ order => valid order) (fun _ => True)); [exact I|].
    intros _ s' _ _. eapply returns_mono; [apply valid_sample|]. cbn. auto.
  - cbn. intros population s' [Hall _]. split.
    + rewrite <- (Forall2_length _ _ _ Hall). apply length_seq.
    + eapply Forall2_Forall_r; [exact Hall|]. apply Forall_forall. auto.
Qed.

Lemma sort_population_returns population s :
  Forall valid population ->
  returns (sort_population sheet_width sheet_height part_list population) s
    (fun sorted _ => sorted ≡ₚ population).
Proof.
  intros Hv. unfold sort_population. apply returns_bind.
  eapply returns_mono.
  - apply (returns_for_each _ (fun _ _ => True) (fun _ => True)); [exact I|].
    intros order s' Hin _. rewrite Forall_forall in Hv.
    eapply returns_mono; [apply fitness_returns, Hv, Hin|]. cbn. auto.
  - cbn. intros keys s' [Hall _]. apply returns_ret.
    apply sorted_population_Permutation. symmetry. exact (Forall2_length _ _ _ Hall).
Qed.

Lemma crossover_returns parent1 parent2 s :
  (2 <= length part_list)%nat -> valid parent1 -> valid parent2 ->
  returns (crossover rnd parent1 parent2) s (fun child _ => valid child).
Proof.
  intros Hn H1 H2. unfold valid_individual in *.
  destruct (crossover_run rnd parent1 parent2 s) as (child & s' & Hrun & Hperm & _).
  { rewrite (Permutation_length H1), length_seq. exact Hn. }
  exists child, s'. split; [exact Hrun|]. rewrite <- H2. apply Hperm.
  - rewrite H1. apply NoDup_seq.
  - rewrite H1, H2. reflexivity.
Qed.

Lemma mutate_returns order s :
  (2 <= length part_list)%nat -> valid order ->
  returns (mutate rnd mutation_rate order) s (fun order' _ => valid order').
Proof.
  intros Hn Hv. unfold valid_individual in *.
  destruct (mutate_run rnd mutation_rate order s) as (order' & s' & Hrun & Hperm & _).
  { rewrite (Permutation_length Hv), length_seq. exact Hn. }
  exists order', s'. split; [exact Hrun|]. rewrite Hperm. exact Hv.
Qed.

Lemma parents_returns (population : list (list nat)) s :
  (2 <= length population)%nat ->
  returns (random_sample rnd (take 10 population) 2) s
    (fun parents _ => exists parent1 parent2,
       parents = [parent1; parent2] /\ parent1 ∈ population /\ parent2 ∈ population).
Proof.
  intros Hlen.
  destruct (random_sample_run rnd (take 10 population) 2 s)
    as (l & rest & s' & Hrun & Hl & Hperm & _).
  { rewrite length_take. lia. }
  exists l, s'. split; [exact Hrun|].
  destruct l as [|parent1 [|parent2 [|? ?]]]; try discriminate Hl.
  exists parent1, parent2. split; [reflexivity|].
  assert (forall x, x ∈ [parent1; parent2] -> x ∈ population) as Hin.
  { intros x Hx. apply (subseteq_take 10 population). rewrite <- Hperm.
    apply elem_of_app. left. exact Hx. }
  split; apply Hin; [left|right; left].
Qed.

Lemma reproduce_returns population count : forall next_generation s,
  (2 <= length part_list)%nat -> (2 <= length population)%nat ->
  Forall valid population -> Forall valid next_generation ->
  returns (reproduce rnd mutation_rate population count next_generation) s
    (fun next _ => Forall valid next /\
                   length next = (length next_generation + 2 * count)%nat).
Proof.
  induction count as [|count IH]; intros next_generation s Hn Hlen Hpop Hnext.
  - apply returns_ret. split; [exact Hnext|lia].
  - cbn [reproduce]. apply returns_bind.
    eapply returns_mono; [apply parents_returns, Hlen|]. cbn.
    intros parents s1 (parent1 & parent2 & -> & Hp1 & Hp2).
    rewrite Forall_forall in Hpop.
    pose proof (Hpop _ Hp1) as Hv1. pose proof (Hpop _ Hp2) as Hv2.
    apply returns_bind.
    eapply returns_mono; [apply crossover_returns; assumption|]. cbn.
    intros child1 s2 Hc1. apply returns_bind.
    eapply returns_mono; [apply crossover_returns; assumption|]. cbn.
    intros child2 s3 Hc2. apply returns_bind.
    eapply returns_mono; [apply mutate_returns; assumption|]. cbn.
    intros child1' s4 Hc1'. apply returns_bind.
    eapply returns_mono; [apply mutate_returns; assumption|]. cbn.
    intros child2' s5 Hc2'.
    eapply returns_mono.
    + apply IH; [assumption|assumption|apply Forall_forall; assumption|].
      apply Forall_app. split; [exact Hnext|].
      repeat constructor; assumption.
    + cbn. intros next s6 [Hall Hl]. split; [exact Hall|].
      rewrite Hl, length_app. cbn. lia.
Qed.

Lemma generation_loop_returns remaining : forall population s,
  (2 <= length part_list)%nat -> (2 <= population_size)%nat ->
  (2 <= length population)%nat -> Forall valid population ->
  returns (generation_loop rnd sheet_width sheet_height part_list population_size
             mutation_rate remaining population) s
    (fun final _ => Forall valid final /\ (2 <= length final)%nat).
Proof.
  induction remaining as [|remaining IH]; intros population s Hn HP Hlen Hpop.
  - apply returns_ret. auto.
  - cbn [generation_loop]. apply returns_bind.
    eapply returns_mono; [apply sort_population_returns, Hpop|]. cbv beta.
    intros sorted s1 Hsorted.
    assert (Forall valid sorted) as Hv by (rewrite Hsorted; exact Hpop).
    assert (2 <= length sorted)%nat as Hl by (rewrite Hsorted; exact Hlen).
    apply returns_bind. apply returns_subscript; [lia|].
    intros best Hbest. apply returns_bind.
    eapply returns_mono.
    { apply fitness_returns. rewrite Forall_forall in Hv. apply Hv.
      apply list_elem_of_lookup. eauto. }
    cbv beta. intros f s2 _.
    destruct (fitness_eq_int f (length part_list)).
    + apply returns_ret. auto.
    + apply returns_bind.
      eapply returns_mono; [apply reproduce_returns; auto|]. cbv beta.
      intros next s3 [Hnext Hlnext]. apply IH; try assumption.
      rewrite Hlnext. change (length (@nil (list nat))) with 0%nat.
      pose proof (Nat.div_mod_eq population_size 2).
      pose proof (Nat.mod_upper_bound population_size 2 ltac:(lia)). lia.
Qed.

(** For at least two parts and a population of at least two, the optimizer
    returns, and what it returns is a permutation of the part indices. *)
Lemma genetic_algorithm_returns s :
  (2 <= length part_list)%nat -> (2 <= population_size)%nat ->
  returns (genetic_algorithm rnd sheet_width sheet_height part_list population_size
             generations mutation_rate) s
    (fun best_order _ => valid best_order).
Proof.
  intros Hn HP. unfold genetic_algorithm. apply returns_bind.
  eapply returns_mono; [apply initialize_population_returns|]. cbn.
  intros population s1 [Hlen Hpop]. apply returns_bind.
  eapply returns_mono; [apply generation_loop_returns; auto; lia|]. cbn.
  intros final s2 [Hfinal Hl]. apply returns_subscript; [lia|].
  intros best Hbest. rewrite Forall_forall in Hfinal. apply Hfinal.
  apply list_elem_of_lookup. eauto.
Qed.

End Optimizer.

(** ** A single part that fits nowhere *)

Lemma bind_raises {S A B} (m : M S A) (f : A -> M S B) s e :
  returns m s (fun a s' => f a s' = Raise e) -> bind m f s = Raise e.
Proof. intros (a & s' & Hm & Hf). unfold bind. rewrite Hm. exact Hf. Qed.

Lemma can_place_empty_sheet h W H part pos :
  can_place h (new_Sheet W H) part pos = can_place [] (new_Sheet W H) part pos.
Proof. reflexivity. Qed.

Lemma fitness_unplaceable W H part h :
  unplaceable W H part ->
  fitness W H [part] [0%nat] h = Ok (Infinity, h).
Proof.
  intros Hun. unfold fitness.
  rewrite (fitness_loop_cons W H [part] _ 0 [] h part eq_refl).
  destruct (first_fit_spec W H h (new_Sheet W H) part (positioned_new_Sheet h W H))
    as [(pos & Hlat & Hat & _)|[_ ->]]; [|reflexivity].
  rewrite can_place_empty_sheet, (Hun pos Hlat) in Hat. discriminate Hat.
Qed.

Lemma valid_individual_1 order : valid_individual 1 order -> order = [0%nat].
Proof. intros Hv. apply Permutation_singleton_r. exact Hv. Qed.

Lemma too_large_unplaceable n name :
  unplaceable 10 10 (new_Part n (name, (0, 0, 20, 20))).
Proof.
  intros [x y] [[Hx _] [Hy _]]. cbn in Hx, Hy.
  unfold can_place. cbn.
  destruct (Z.gtb_spec (20 + x) 10) as [_|Hle]; [|lia].
  rewrite orb_true_r. reflexivity.
Qed.

Section SinglePart.

Variable rnd : nat -> Z.
Variables sheet_width sheet_height : Z.
Variable part : Part.
Variables population_size : nat.
Variable mutation_rate : Q.
Hypothesis part_unplaceable : unplaceable sheet_width sheet_height part.
Hypothesis population_size_ge_2 : (2 <= population_size)%nat.

Lemma reproduce_single_raises (population : list (list nat)) count s :
  Forall (valid_individual 1) population -> (2 <= length population)%nat ->
  reproduce rnd mutation_rate population (S count) [] s = Raise ValueError.
Proof.
  intros Hv Hlen. cbn [reproduce]. apply bind_raises.
  eapply returns_mono; [apply parents_returns, Hlen|]. cbv beta.
  intros parents s1 (parent1 & parent2 & -> & Hp1 & _).
  rewrite Forall_forall in Hv. apply Hv, valid_individual_1 in Hp1 as ->.
  unfold bind. rewrite crossover_raises; [reflexivity|cbn; lia].
Qed.

Lemma generation_loop_single_raises (population : list (list nat)) remaining s :
  Forall (valid_individual 1) population -> (2 <= length population)%nat ->
  generation_loop rnd sheet_width sheet_height [part] population_size mutation_rate
    (S remaining) population s = Raise ValueError.
Proof.
  intros Hv Hlen. cbn [generation_loop]. apply bind_raises.
  eapply returns_mono; [apply sort_population_returns, Hv|]. cbv beta.
  intros sorted s1 Hsorted.
  assert (Forall (valid_individual 1) sorted) as Hv1 by (rewrite Hsorted; exact Hv).
  assert (2 <= length sorted)%nat as Hl by (rewrite Hsorted; exact Hlen).
  apply bind_raises. apply returns_subscript; [lia|].
  intros best Hbest.
  assert (best = [0%nat]) as ->.
  { apply valid_individual_1. rewrite Forall_forall in Hv1. apply Hv1.
    apply list_elem_of_lookup. eauto. }
  unfold bind at 1. unfold on_store at 1.
  rewrite (fitness_unplaceable _ _ _ _ part_unplaceable).
  change (fitness_eq_int Infinity (length [part])) with false. cbv iota.
  destruct (population_size / 2)%nat as [|count] eqn:Hhalf.
  { pose proof (Nat.div_mod_eq population_size 2).
    pose proof (Nat.mod_upper_bound population_size 2 ltac:(lia)). lia. }
  unfold bind. rewrite reproduce_single_raises; [reflexivity|exact Hv1|exact Hl].
Qed.

Lemma genetic_algorithm_single_raises generations s :
  genetic_algorithm rnd sheet_width sheet_height [part] population_size
    (S generations) mutation_rate s = Raise ValueError.
Proof.
  unfold genetic_algorithm. apply bind_raises.
  eapply returns_mono; [apply initialize_population_returns|]. cbv beta.
  intros population s1 [Hlen Hv].
  unfold bind. rewrite generation_loop_single_raises; [reflexivity|exact Hv|lia].
Qed.

End SinglePart.

(** C10. [crossover] returns only for parents of length at least 2: its cut
    point is drawn from [[1, n-1]], which is empty for [n = 1].  So for one
    part that fits at no offset of the step-10 lattice, [genetic_algorithm]
    (with at least one generation and a population of at least two, as with
    the defaults) raises [ValueError] instead of returning an order, and
    [nest_parts] raises with it rather than returning a sheet. *)
Theorem single_unplaceable_part_raises rnd W H file s :
  unplaceable W H (new_Part 0 file) ->
  (forall parent1 parent2 s',
     (exists r, crossover rnd parent1 parent2 s' = Ok r) <->
     (2 <= length parent1)%nat) /\
  (forall population_size generations mutation_rate,
     (2 <= population_size)%nat -> (1 <= generations)%nat ->
     genetic_algorithm rnd W H [new_Part 0 file] population_size generations
       mutation_rate s = Raise ValueError) /\
  nest_parts rnd W H [file] s = Raise ValueError.
Proof.
  intros Hun. split; [|split].
  - intros parent1 parent2 s'. split.
    + intros [r Hr]. destruct (le_lt_dec 2 (length parent1)) as [|Hlt]; [assumption|].
      rewrite crossover_raises in Hr by exact Hlt. discriminate Hr.
    + intros Hlen.
      destruct (crossover_run rnd parent1 parent2 s' Hlen) as (child & s'' & Hrun & _).
      eauto.
  - intros population_size [|generations] mutation_rate HP HG; [lia|].
    apply genetic_algorithm_single_raises; assumption.
  - unfold nest_parts. cbn [imap]. unfold bind.
    rewrite genetic_algorithm_single_raises; [reflexivity|exact Hun|lia].
Qed.

Lemma single_unplaceable_part_raises_witness :
  nest_parts (fun _ => 0) 10 10 [("big.dxf"%string, (0, 0, 20, 20))] initial_state
    = Raise ValueError.
Proof.
  apply (single_unplaceable_part_raises (fun _ => 0) 10 10).
  apply too_large_unplaceable.
Defined.

(** ** The final replay *)

Lemma new_Part_NoDup files : NoDup (imap new_Part files).
Proof.
  apply (NoDup_fmap_1 pid). rewrite fmap_imap.
  rewrite (imap_ext _ (fun j _ => j)) by reflexivity.
  rewrite (imap_seq_0 files (fun j => j)). rewrite list_fmap_id. apply NoDup_seq.
Qed.

Lemma named_NoDup part_list order :
  NoDup part_list -> NoDup order -> NoDup (named part_list order).
Proof.
  intros Hparts Horder. unfold named.
  induction Horder as [|i order Hi Horder IH]; cbn; [constructor|].
  destruct (part_list !! i) as [p|] eqn:Hp; [|exact IH].
  constructor; [|exact IH].
  intros Hin. apply list_elem_of_omap in Hin as (j & Hj & Hpj).
  rewrite (NoDup_lookup _ _ _ _ Hparts Hp Hpj) in Hi. contradiction.
Qed.


Lemma assignments_cons h part pos q :
  assignments ((part, pos) :: h) q
  = ((if decide (part = q) then 1 else 0) + assignments h q)%nat.
Proof.
  unfold assignments. cbn. destruct (decide (part = q)); reflexivity.
Qed.

Section Replay.

Variables sheet_width sheet_height : Z.
Variable part_list : list Part.

Lemma replay_cons sheet index rest h part :
  part_list !! index = Some part ->
  replay sheet_width sheet_height part_list sheet (index :: rest) h =
    match first_fit sheet_width sheet_height sheet part h with
    | Ok ((_, sheet'), h') =>
      replay sheet_width sheet_height part_list sheet' rest h'
    | Raise e => Raise e
    end.
Proof.
  intros Hpart. cbn. unfold bind, subscript. rewrite Hpart. cbn.
  destruct (first_fit _ _ _ _ _) as [[[? ?] ?]|]; reflexivity.
Qed.

(** The replay returns; it accepts some of the parts the order names, each
    acceptance is one assignment, and nothing else is assigned. *)
Lemma replay_run order : forall sheet h,
  sheet_invariant_objects h sheet ->
  (forall i, i ∈ order -> (i < length part_list)%nat) ->
  exists sheet' h' accepted,
    replay sheet_width sheet_height part_list sheet order h = Ok (sheet', h') /\
    sheet_invariant_objects h' sheet' /\
    parts sheet' = parts sheet ++ accepted /\
    accepted `sublist_of` named part_list order /\
    (forall p, assignments h' p = (assignments h p + occurrences p accepted)%nat).
Proof.
  induction order as [|index rest IH]; intros sheet h Hinv Hidx.
  - exists sheet, h, []. split; [reflexivity|]. split; [exact Hinv|].
    split; [rewrite app_nil_r; reflexivity|]. split; [constructor|].
    intros p. unfold occurrences. cbn. lia.
  - destruct (lookup_lt_is_Some_2 part_list index) as [part Hpart].
    { apply Hidx. left. }
    assert (forall i, i ∈ rest -> (i < length part_list)%nat) as Hidx'.
    { intros i Hi. apply Hidx. right. exact Hi. }
    rewrite (replay_cons _ _ _ _ _ Hpart), (named_cons _ _ _ _ Hpart).
    destruct (first_fit_cases sheet_width sheet_height h sheet part
                (contained_positioned _ _ (proj1 Hinv)))
      as [(pos & -> & Hcan)| ->].
    + destruct (IH (append_part sheet part) ((part, pos) :: h))
        as (sheet' & h' & accepted & Hrun & Hinv' & Hparts & Hsub & Hcount);
        [apply invariant_accept; assumption|exact Hidx'|].
      exists sheet', h', (part :: accepted). split; [exact Hrun|].
      split; [exact Hinv'|]. split.
      { rewrite Hparts. cbn. rewrite <- app_assoc. reflexivity. }
      split; [apply sublist_skip, Hsub|].
      intros p. rewrite Hcount, assignments_cons. unfold occurrences.
      destruct (decide (part = p)) as [->|Hne].
      * rewrite filter_cons_True by reflexivity. cbn. lia.
      * rewrite filter_cons_False by assumption. lia.
    + destruct (IH sheet h Hinv Hidx')
        as (sheet' & h' & accepted & Hrun & Hinv' & Hparts & Hsub & Hcount).
      exists sheet', h', accepted. split; [exact Hrun|].
      split; [exact Hinv'|]. split; [exact Hparts|].
      split; [apply sublist_cons, Hsub|exact Hcount].
Qed.

End Replay.

(** ** Parts that fit nowhere *)

Lemma replay_unplaceable W H part_list order : forall h,
  (forall p, p ∈ part_list -> unplaceable W H p) ->
  (forall i, i ∈ order -> (i < length part_list)%nat) ->
  replay W H part_list (new_Sheet W H) order h = Ok (new_Sheet W H, h).
Proof.
  induction order as [|index rest IH]; intros h Hun Hidx; [reflexivity|].
  destruct (lookup_lt_is_Some_2 part_list index) as [part Hpart].
  { apply Hidx. left. }
  rewrite (replay_cons _ _ _ _ _ _ _ _ Hpart).
  destruct (first_fit_spec W H h (new_Sheet W H) part (positioned_new_Sheet h W H))
    as [(pos & Hlat & Hat & _)|[_ ->]].
  - rewrite can_place_empty_sheet in Hat. rewrite Hun in Hat; [discriminate Hat| |exact Hlat].
    apply list_elem_of_lookup. eauto.
  - apply IH; [exact Hun|]. intros i Hi. apply Hidx. right. exact Hi.
Qed.

(** C4 on the code.  Two 20x20 parts on a 10x10 sheet cannot be placed; for
    every random source [nest_parts] returns the empty sheet and nothing
    else, the very value it returns when it is given no part at all. *)
Theorem nest_parts_drops_unplaced_parts rnd :
  let files := [("big1.dxf"%string, (0, 0, 20, 20));
                ("big2.dxf"%string, (0, 0, 20, 20))] in
  (exists s', nest_parts rnd 10 10 files initial_state = Ok (new_Sheet 10 10, s')) /\
  nest_parts rnd 10 10 [] initial_state = Ok (new_Sheet 10 10, initial_state).
Proof.
  intros files. split; [|reflexivity].
  set (part_list := imap new_Part files).
  destruct (genetic_algorithm_returns rnd 10 10 part_list 50 100 (1 # 10) initial_state)
    as (best_order & s1 & Hga & Hvalid); [cbn; lia|lia|].
  exists (mkState (cursor s1) (store s1)).
  unfold nest_parts. fold part_list. unfold bind. rewrite Hga. unfold on_store.
  rewrite replay_unplaceable; [reflexivity| |].
  - intros p Hp. cbn in Hp.
    apply elem_of_cons in Hp as [->|Hp]; [apply too_large_unplaceable|].
    apply list_elem_of_singleton in Hp as ->. apply too_large_unplaceable.
  - intros i Hi. unfold valid_individual in Hvalid. rewrite Hvalid in Hi.
    apply elem_of_seq in Hi. lia.
Qed.

(** ** The individual the optimizer returns *)

(** C1 on the code.  Sheet 25x10, part 0 of 10x10 and part 1 of 15x10: the
    order [[0, 1]] places both parts, the order [[1, 0]] does not.  With a
    population of two and one generation, both initial individuals are
    [[1, 0]]; the loop sorts them, does not converge, and replaces the
    population by the two children, [[1, 0]] and the mutated [[0, 1]].  The
    budget is then exhausted and the children are not sorted: the optimizer
    returns [[1, 0]], of fitness [inf], although the final population holds
    [[0, 1]], of fitness 2. *)
Theorem genetic_algorithm_returns_unsorted_head :
  let part_list := [mkPart 0 "a.dxf" (0, 0, 10, 10); mkPart 1 "b.dxf" (0, 0, 15, 10)] in
  let rnd := draws [1; 0; 1; 0; 0; 0; 0; 0; 2 ^ 52; 0; 0; 0] in
  exists final s' h1 h2,
    (population <- initialize_population rnd part_list 2 ;;
     generation_loop rnd 25 10 part_list 2 (1 # 10) 1 population) initial_state
      = Ok (final, s') /\
    genetic_algorithm rnd 25 10 part_list 2 1 (1 # 10) initial_state
      = Ok ([1; 0]%nat, s') /\
    final = [[1; 0]; [0; 1]]%nat /\
    fitness 25 10 part_list [1; 0]%nat (store s') = Ok (Infinity, h1) /\
    fitness 25 10 part_list [0; 1]%nat (store s') = Ok (Finite 2, h2) /\
    fitness_lt (Finite 2) Infinity = true.
Proof.
  intros part_list rnd. eexists _, _, _, _.
  split; [vm_compute; reflexivity|].
  split; [vm_compute; reflexivity|].
  split; [reflexivity|].
  split; [vm_compute; reflexivity|].
  split; [vm_compute; reflexivity|reflexivity].
Qed.

(** * Further properties of the code *)

(** ** The overlap test is symmetric *)

(** X1. [check_overlap] does not depend on which of the two parts is the one
    being placed: testing [p] at its position against [q] gives the answer
    of testing [q] at its position against [p]. *)
Theorem check_overlap_symmetric h p q pos_p pos_q :
  position h p = Ok pos_p -> position h q = Ok pos_q ->
  check_overlap h p pos_p q = check_overlap h q pos_q p.
Proof.
  intros Hp Hq.
  rewrite (check_overlap_unfold _ _ _ _ _ Hq), (check_overlap_unfold _ _ _ _ _ Hp).
  cbv zeta.
  set (r1 := translated (bounding_box p) pos_p).
  set (r2 := translated (bounding_box q) pos_q).
  f_equal. f_equal. rewrite !Z.geb_leb.
  destruct (r_max_x r1 <=? r_min_x r2), (r_max_x r2 <=? r_min_x r1),
    (r_max_y r1 <=? r_min_y r2), (r_max_y r2 <=? r_min_y r1); reflexivity.
Qed.

Lemma check_overlap_symmetric_witness :
  let p := mkPart 0 "a.dxf" (0, 0, 10, 10) in
  let q := mkPart 1 "b.dxf" (0, 0, 15, 10) in
  let h := [(q, (5, 0)); (p, (0, 0))] in
  check_overlap h p (0, 0) q = check_overlap h q (5, 0) p.
Proof.
  intros p q h. apply check_overlap_symmetric; reflexivity.
Defined.

(** ** Stale positions do not reach a fitness evaluation *)

Lemma agree_on_accept h1 h2 sheet part pos :
  agree_on h1 h2 (parts sheet) ->
  agree_on ((part, pos) :: h1) ((part, pos) :: h2) (parts (append_part sheet part)).
Proof.
  intros Hag q Hq. destruct (decide (q = part)) as [->|Hne].
  - rewrite !position_newest. reflexivity.
  - rewrite !position_older by assumption. apply Hag.
    cbn in Hq. apply elem_of_app in Hq as [Hq|Hq]; [exact Hq|].
    apply list_elem_of_singleton in Hq. contradiction.
Qed.

Lemma can_place_loop_agree h1 h2 part pos placed :
  agree_on h1 h2 placed ->
  can_place_loop h1 part pos placed = can_place_loop h2 part pos placed.
Proof.
  induction placed as [|q placed IH]; intros Hag; [reflexivity|].
  cbn. rewrite (check_overlap_same_position h2 h1) by (apply Hag; left).
  rewrite IH; [reflexivity|]. intros q' Hq'. apply Hag. right. exact Hq'.
Qed.

Lemma can_place_agree h1 h2 sheet part pos :
  agree_on h1 h2 (parts sheet) ->
  can_place h1 sheet part pos = can_place h2 sheet part pos.
Proof.
  intros Hag. unfold can_place.
  rewrite (can_place_loop_agree h1 h2) by exact Hag. reflexivity.
Qed.

Lemma add_part_cases h self part pos :
  match can_place h self part pos with
  | Ok true => add_part self part pos h
               = Ok ((true, append_part self part), (part, pos) :: h)
  | Ok false => add_part self part pos h = Ok ((false, self), h)
  | Raise e => add_part self part pos h = Raise e
  end.
Proof.
  unfold add_part, bind, read. destruct (can_place h self part pos) as [[|]|e]; reflexivity.
Qed.

Lemma add_part_alike h1 h2 sheet part pos :
  agree_on h1 h2 (parts sheet) ->
  alike (add_part sheet part pos h1) (add_part sheet part pos h2).
Proof.
  intros Hag.
  pose proof (add_part_cases h1 sheet part pos) as H1.
  pose proof (add_part_cases h2 sheet part pos) as H2.
  rewrite (can_place_agree h1 h2 _ _ _ Hag) in H1.
  destruct (can_place h2 sheet part pos) as [[|]|e]; rewrite H1, H2; cbn.
  - split; [reflexivity|]. split; [reflexivity|]. apply agree_on_accept, Hag.
  - auto.
  - reflexivity.
Qed.

Lemma scan_y_alike part x ys : forall sheet h1 h2,
  agree_on h1 h2 (parts sheet) ->
  alike (scan_y sheet part x ys h1) (scan_y sheet part x ys h2).
Proof.
  induction ys as [|y ys IH]; intros sheet h1 h2 Hag.
  - cbn. auto.
  - pose proof (add_part_alike h1 h2 sheet part (x, y) Hag) as Hstep.
    cbn [scan_y]. unfold bind.
    destruct (add_part sheet part (x, y) h1) as [[[ok1 s1] h1']|e1],
             (add_part sheet part (x, y) h2) as [[[ok2 s2] h2']|e2];
      cbn in Hstep; try contradiction; [|exact Hstep].
    destruct Hstep as (<- & <- & Hag'). destruct ok1.
    + cbn. auto.
    + apply IH, Hag'.
Qed.

Lemma scan_x_alike part xs ys : forall sheet h1 h2,
  agree_on h1 h2 (parts sheet) ->
  alike (scan_x sheet part xs ys h1) (scan_x sheet part xs ys h2).
Proof.
  induction xs as [|x xs IH]; intros sheet h1 h2 Hag.
  - cbn. auto.
  - pose proof (scan_y_alike part x ys sheet h1 h2 Hag) as Hstep.
    cbn [scan_x]. unfold bind.
    destruct (scan_y sheet part x ys h1) as [[[ok1 s1] h1']|e1],
             (scan_y sheet part x ys h2) as [[[ok2 s2] h2']|e2];
      cbn in Hstep; try contradiction; [|exact Hstep].
    destruct Hstep as (<- & <- & Hag'). destruct ok1.
    + cbn. auto.
    + apply IH, Hag'.
Qed.

Lemma fitness_loop_agree W H part_list order : forall sheet h1 h2,
  agree_on h1 h2 (parts sheet) ->
  value_of (fitness_loop W H part_list sheet order h1)
  = value_of (fitness_loop W H part_list sheet order h2).
Proof.
  induction order as [|index rest IH]; intros sheet h1 h2 Hag; [reflexivity|].
  destruct (part_list !! index) as [part|] eqn:Hpart.
  - rewrite !(fitness_loop_cons _ _ _ _ _ _ _ _ Hpart).
    pose proof (scan_x_alike part (py_range W 10) (py_range H 10) sheet h1 h2 Hag)
      as Hstep.
    unfold first_fit.
    destruct (scan_x sheet part _ _ h1) as [[[ok1 s1] h1']|e1],
             (scan_x sheet part _ _ h2) as [[[ok2 s2] h2']|e2];
      cbn in Hstep; try contradiction.
    + destruct Hstep as (<- & <- & Hag'). destruct ok1; [apply IH, Hag'|reflexivity].
    + subst e2. reflexivity.
  - cbn. unfold bind, subscript. rewrite Hpart. reflexivity.
Qed.

(** X2. The value of [fitness] is a function of the order alone: positions
    that earlier evaluations left on the parts never reach it, because every
    position [check_overlap] reads belongs to a part the same evaluation has
    placed.  Two evaluations of one order, from any two stores, return the
    same value or raise the same exception. *)
Theorem fitness_ignores_stale_positions W H part_list order h1 h2 :
  value_of (fitness W H part_list order h1)
  = value_of (fitness W H part_list order h2).
Proof.
  unfold fitness. apply fitness_loop_agree. intros q Hq. inversion Hq.
Qed.

(** ** The replay of the driver against the evaluation of the optimizer *)

Lemma scan_y_shape part x ys : forall sheet h,
  match scan_y sheet part x ys h with
  | Ok ((true, sheet'), h') =>
    sheet' = append_part sheet part /\ exists pos, h' = (part, pos) :: h
  | Ok ((false, sheet'), h') => sheet' = sheet /\ h' = h
  | Raise _ => True
  end.
Proof.
  induction ys as [|y ys IH]; intros sheet h; [cbn; auto|].
  pose proof (add_part_cases h sheet part (x, y)) as Hadd.
  cbn [scan_y]. unfold bind.
  destruct (can_place h sheet part (x, y)) as [[|]|e]; rewrite Hadd.
  - cbn. eauto.
  - apply IH.
  - exact I.
Qed.

Lemma first_fit_shape W H sheet part h :
  match first_fit W H sheet part h with
  | Ok ((true, sheet'), h') =>
    sheet' = append_part sheet part /\ exists pos, h' = (part, pos) :: h
  | Ok ((false, sheet'), h') => sheet' = sheet /\ h' = h
  | Raise _ => True
  end.
Proof.
  unfold first_fit. generalize (py_range H 10) as ys.
  induction (py_range W 10) as [|x xs IH]; intros ys; [cbn; auto|].
  pose proof (scan_y_shape part x ys sheet h) as Hy.
  cbn [scan_x]. unfold bind.
  destruct (scan_y sheet part x ys h) as [[[[|] s1] h1]|e].
  - cbn. exact Hy.
  - destruct Hy as [-> ->]. apply IH.
  - exact I.
Qed.

Lemma replay_accepts_sublist W H part_list order : forall sheet h sheet' h',
  replay W H part_list sheet order h = Ok (sheet', h') ->
  exists accepted,
    parts sheet' = parts sheet ++ accepted /\
    accepted `sublist_of` named part_list order.
Proof.
  induction order as [|index rest IH]; intros sheet h sheet' h' Hrun.
  - injection Hrun as <- <-. exists []. rewrite app_nil_r. split; [reflexivity|constructor].
  - destruct (part_list !! index) as [part|] eqn:Hpart.
    + rewrite (replay_cons _ _ _ _ _ _ _ _ Hpart) in Hrun.
      rewrite (named_cons _ _ _ _ Hpart).
      pose proof (first_fit_shape W H sheet part h) as Hshape.
      destruct (first_fit W H sheet part h) as [[[[|] s1] h1]|e]; [| |discriminate Hrun].
      * destruct Hshape as [-> _].
        destruct (IH _ _ _ _ Hrun) as (acc & Hparts & Hsub).
        exists (part :: acc). split; [|apply sublist_skip, Hsub].
        rewrite Hparts. cbn. rewrite <- app_assoc. reflexivity.
      * destruct Hshape as [-> ->].
        destruct (IH _ _ _ _ Hrun) as (acc & Hparts & Hsub).
        exists acc. split; [exact Hparts|apply sublist_cons, Hsub].
    + cbn in Hrun. unfold bind, subscript in Hrun. rewrite Hpart in Hrun.
      discriminate Hrun.
Qed.

Lemma fitness_loop_finite_iff_replay W H part_list order : forall sheet h,
  (exists k, value_of (fitness_loop W H part_list sheet order h) = Ok (Finite k)) <->
  (exists sheet' h',
     replay W H part_list sheet order h = Ok (sheet', h') /\
     parts sheet' = parts sheet ++ named part_list order /\
     length (named part_list order) = length order).
Proof.
  induction order as [|index rest IH]; intros sheet h.
  - split; [intros _|intros _; cbn; eauto].
    exists sheet, h. cbn. rewrite app_nil_r. auto.
  - destruct (part_list !! index) as [part|] eqn:Hpart.
    + rewrite (replay_cons _ _ _ _ _ _ _ _ Hpart), (named_cons _ _ _ _ Hpart).
      rewrite (fitness_loop_cons _ _ _ _ _ _ _ _ Hpart).
      pose proof (first_fit_shape W H sheet part h) as Hshape.
      destruct (first_fit W H sheet part h) as [[[[|] s1] h1]|e].
      * destruct Hshape as [-> _]. rewrite IH. cbn [length parts append_part].
        split; intros (sheet' & h' & Hrun & Hparts & Hlen);
          exists sheet', h'; (split; [exact Hrun|]).
        -- rewrite Hparts, <- app_assoc. split; [reflexivity|lia].
        -- rewrite Hparts, <- app_assoc. split; [reflexivity|lia].
      * destruct Hshape as [-> ->]. split.
        -- intros [k Hk]. discriminate Hk.
        -- intros (sheet' & h' & Hrun & Hparts & Hlen). exfalso.
           destruct (replay_accepts_sublist _ _ _ _ _ _ _ _ Hrun) as (acc & Hacc & Hsub).
           rewrite Hacc in Hparts. apply app_inv_head in Hparts. subst acc.
           apply sublist_length in Hsub. cbn in Hsub. lia.
      * split; [intros [k Hk]; discriminate Hk|].
        intros (sheet' & h' & Hrun & _). discriminate Hrun.
    + split.
      * intros [k Hk]. cbn in Hk. unfold bind, subscript in Hk. rewrite Hpart in Hk.
        discriminate Hk.
      * intros (sheet' & h' & Hrun & _). cbn in Hrun.
        unfold bind, subscript in Hrun. rewrite Hpart in Hrun. discriminate Hrun.
Qed.

(** X3. The optimizer's score and the driver's replay tell the same story:
    [fitness] of an order is finite (evaluated from any store) exactly when
    the replay loop of [nest_parts], run on an empty sheet in that order,
    accepts every part the order names, in that order. *)
Theorem fitness_finite_iff_replay_places_all W H part_list order h0 h :
  (exists k, value_of (fitness W H part_list order h0) = Ok (Finite k)) <->
  (exists sheet h',
     replay W H part_list (new_Sheet W H) order h = Ok (sheet, h') /\
     parts sheet = named part_list order /\
     length (parts sheet) = length order).
Proof.
  unfold fitness.
  rewrite (fitness_loop_agree W H part_list order (new_Sheet W H) h0 h)
    by (intros q Hq; inversion Hq).
  rewrite fitness_loop_finite_iff_replay. cbn [parts new_Sheet app].
  split; intros (sheet & h' & Hrun & Hparts & Hlen); exists sheet, h';
    (split; [exact Hrun|]); rewrite Hparts in *; auto.
Qed.

(** ** What the driver leaves off the sheet *)

Lemma can_place_stays_false h sheet h' sheet' part pos accepted :
  can_place h sheet part pos = Ok false ->
  parts sheet' = parts sheet ++ accepted ->
  width sheet' = width sheet -> height sheet' = height sheet ->
  agree_on h h' (parts sheet) -> positioned h' sheet' ->
  can_place h' sheet' part pos = Ok false.
Proof.
  intros Hfalse Hparts Hw Hh Hag Hpos.
  destruct (can_place_total h' sheet' part pos Hpos) as [[|] Hb]; [|exact Hb].
  exfalso. apply can_place_true in Hb as [Hin Hfree].
  assert (can_place h sheet part pos = Ok true) as Htrue; [|congruence].
  apply can_place_true. split.
  - unfold inside in *. rewrite <- Hw, <- Hh. exact Hin.
  - intros q Hq.
    rewrite <- (check_overlap_same_position h h') by (symmetry; apply Hag, Hq).
    apply Hfree. rewrite Hparts. apply elem_of_app. left. exact Hq.
Qed.

Lemma replay_unplaced W H part_list order : forall sheet h,
  positioned h sheet ->
  (forall i, i ∈ order -> (i < length part_list)%nat) ->
  NoDup (named part_list order) ->
  (forall p, p ∈ named part_list order -> p ∉ parts sheet) ->
  exists sheet' h' accepted,
    replay W H part_list sheet order h = Ok (sheet', h') /\
    parts sheet' = parts sheet ++ accepted /\
    width sheet' = width sheet /\ height sheet' = height sheet /\
    agree_on h h' (parts sheet) /\ positioned h' sheet' /\
    forall p, p ∈ named part_list order -> p ∉ parts sheet' ->
      forall pos, on_lattice W H 10 pos -> can_place h' sheet' p pos = Ok false.
Proof.
  induction order as [|index rest IH]; intros sheet h Hpos Hidx Hnd Hnew.
  - exists sheet, h, []. rewrite app_nil_r.
    repeat (split; [reflexivity || assumption|]).
    split; [intros q _; reflexivity|]. split; [exact Hpos|].
    intros p Hp. inversion Hp.
  - destruct (lookup_lt_is_Some_2 part_list index) as [part Hpart].
    { apply Hidx. left. }
    assert (forall i, i ∈ rest -> (i < length part_list)%nat) as Hidx'.
    { intros i Hi. apply Hidx. right. exact Hi. }
    rewrite (named_cons _ _ _ _ Hpart) in Hnd, Hnew |- *.
    apply NoDup_cons in Hnd as [Hfresh Hnd].
    rewrite (replay_cons _ _ _ _ _ _ _ _ Hpart).
    destruct (first_fit_spec W H h sheet part Hpos)
      as [(pos & _ & _ & _ & ->)|[Hnone ->]].
    + destruct (IH (append_part sheet part) ((part, pos) :: h))
        as (sheet' & h' & acc & Hrun & Hparts & Hw & Hh & Hag & Hpos' & Hout);
        [apply positioned_accept, Hpos|exact Hidx'|exact Hnd| |].
      { intros p Hp Hin. cbn in Hin. apply elem_of_app in Hin as [Hin|Hin].
        - apply (Hnew p); [right; exact Hp|exact Hin].
        - apply list_elem_of_singleton in Hin as ->. contradiction. }
      exists sheet', h', (part :: acc). split; [exact Hrun|].
      split. { rewrite Hparts. cbn. rewrite <- app_assoc. reflexivity. }
      split; [exact Hw|]. split; [exact Hh|]. split; [|split; [exact Hpos'|]].
      * intros q Hq. rewrite <- Hag by (cbn; apply elem_of_app; left; exact Hq).
        rewrite position_older; [reflexivity|].
        intros ->. apply (Hnew part); [left|exact Hq].
      * intros p Hp Hnot. apply elem_of_cons in Hp as [->|Hp]; [|apply Hout; assumption].
        exfalso. apply Hnot. rewrite Hparts. cbn.
        apply elem_of_app. left. apply elem_of_app. right. left.
    + destruct (IH sheet h)
        as (sheet' & h' & acc & Hrun & Hparts & Hw & Hh & Hag & Hpos' & Hout);
        [exact Hpos|exact Hidx'|exact Hnd| |].
      { intros p Hp. apply Hnew. right. exact Hp. }
      exists sheet', h', acc. split; [exact Hrun|]. split; [exact Hparts|].
      split; [exact Hw|]. split; [exact Hh|]. split; [exact Hag|]. split; [exact Hpos'|].
      intros p Hp Hnot pos Hlat.
      apply elem_of_cons in Hp as [->|Hp]; [|apply Hout; assumption].
      eapply can_place_stays_false; eauto.
Qed.

(** X4. For at least two parts [nest_parts] returns a sheet that holds only
    parts of the input, and a part of the input is missing from it only if
    the final layout leaves it no room: [can_place] rejects the part at every
    offset of the step-10 lattice of the returned sheet. *)
Theorem nest_parts_leaves_out_only_what_cannot_fit rnd W H files s :
  (2 <= length files)%nat ->
  exists sheet s',
    nest_parts rnd W H files s = Ok (sheet, s') /\
    (forall p, p ∈ parts sheet -> p ∈ imap new_Part files) /\
    (forall p, p ∈ imap new_Part files -> p ∉ parts sheet ->
       forall pos, on_lattice W H 10 pos ->
         can_place (store s') sheet p pos = Ok false).
Proof.
  intros Hlen. set (part_list := imap new_Part files).
  assert (length part_list = length files) as Hpl by apply length_imap.
  destruct (genetic_algorithm_returns rnd W H part_list 50 100 (1 # 10) s)
    as (best_order & s1 & Hga & Hvalid); [lia|lia|].
  unfold valid_individual in Hvalid.
  assert (forall p, p ∈ part_list <-> p ∈ named part_list best_order) as Hnamed.
  { intros p. unfold named. rewrite list_elem_of_omap. split.
    - intros Hp. apply list_elem_of_lookup in Hp as [i Hi]. exists i.
      split; [|exact Hi]. rewrite Hvalid. apply elem_of_seq.
      apply lookup_lt_Some in Hi. lia.
    - intros (i & _ & Hi). apply list_elem_of_lookup. eauto. }
  destruct (replay_unplaced W H part_list best_order (new_Sheet W H) (store s1))
    as (sheet & h' & acc & Hrun & Hparts & _ & _ & _ & _ & Hout).
  { apply positioned_new_Sheet. }
  { intros i Hi. rewrite Hvalid in Hi. apply elem_of_seq in Hi. lia. }
  { apply named_NoDup; [apply new_Part_NoDup|]. rewrite Hvalid. apply NoDup_seq. }
  { intros p _ Hin. inversion Hin. }
  exists sheet, (mkState (cursor s1) h'). split.
  { unfold nest_parts. fold part_list. unfold bind. rewrite Hga.
    unfold on_store. rewrite Hrun. reflexivity. }
  split.
  - intros p Hp. apply Hnamed.
    destruct (replay_accepts_sublist _ _ _ _ _ _ _ _ Hrun) as (acc' & Hacc & Hsub).
    cbn in Hacc. rewrite Hacc in Hp. eapply elem_of_sublist; eassumption.
  - intros p Hp Hnot pos Hlat. apply Hout; [apply Hnamed, Hp|exact Hnot|exact Hlat].
Qed.

Lemma nest_parts_leaves_out_only_what_cannot_fit_witness :
  exists sheet s',
    nest_parts (fun _ => 0) 25 10
      [("a.dxf"%string, (0, 0, 10, 10)); ("b.dxf"%string, (0, 0, 15, 10))]
      initial_state = Ok (sheet, s') /\
    forall p, p ∈ parts sheet ->
      p ∈ imap new_Part [("a.dxf"%string, (0, 0, 10, 10)); ("b.dxf"%string, (0, 0, 15, 10))].
Proof.
  destruct (nest_parts_leaves_out_only_what_cannot_fit (fun _ => 0) 25 10
              [("a.dxf"%string, (0, 0, 10, 10)); ("b.dxf"%string, (0, 0, 15, 10))]
              initial_state)
    as (sheet & s' & Hrun & Hin & _).
  { cbn. lia. }
  exists sheet, s'. auto.
Defined.

(** ** The optimizer as a whole *)

(** X5. With at least two parts and a population of at least two, the
    optimizer returns for every random source, every number of generations
    and every mutation rate, and the order it returns is a permutation of
    the part indices: no generation loses or repeats an index. *)
Theorem genetic_algorithm_returns_permutation rnd W H part_list population_size
    generations mutation_rate s :
  (2 <= length part_list)%nat -> (2 <= population_size)%nat ->
  exists best_order s',
    genetic_algorithm rnd W H part_list population_size generations mutation_rate s
      = Ok (best_order, s') /\
    best_order ≡ₚ seq 0 (length part_list).
Proof.
  intros Hn HP.
  exact (genetic_algorithm_returns rnd W H part_list population_size generations
           mutation_rate s Hn HP).
Qed.

Lemma genetic_algorithm_returns_permutation_witness :
  exists best_order s',
    genetic_algorithm (fun _ => 0) 25 10
      [mkPart 0 "a.dxf" (0, 0, 10, 10); mkPart 1 "b.dxf" (0, 0, 15, 10)]
      4 3 (1 # 10) initial_state = Ok (best_order, s') /\
    best_order ≡ₚ seq 0 2.
Proof.
  apply (genetic_algorithm_returns_permutation (fun _ => 0) 25 10
           [mkPart 0 "a.dxf" (0, 0, 10, 10); mkPart 1 "b.dxf" (0, 0, 15, 10)]
           4 3 (1 # 10) initial_state); cbn; lia.
Defined.

(** X6. An empty population cannot be searched: with [population_size = 0]
    the optimizer raises [IndexError] at [population[0]], whatever the parts,
    the number of generations and the random source. *)
Theorem genetic_algorithm_empty_population rnd W H part_list generations
    mutation_rate s :
  genetic_algorithm rnd W H part_list 0 generations mutation_rate s
  = Raise IndexError.
Proof.
  unfold genetic_algorithm, initialize_population. cbn [seq for_each].
  destruct generations; reflexivity.
Qed.

Section OptimizerEdges.

Variable rnd : nat -> Z.
Variables sheet_width sheet_height : Z.
Variable part_list : list Part.
Variable mutation_rate : Q.

Lemma initialize_population_keeps_store population_size s :
  returns (initialize_population rnd part_list population_size) s
    (fun population s' =>
       length population = population_size /\
       Forall (valid_individual (length part_list)) population /\
       store s' = store s).
Proof.
  unfold initialize_population.
  eapply returns_mono.
  - apply (returns_for_each _ (fun _ order => valid_individual (length part_list) order)
             (fun s' => store s' = store s)); [reflexivity|].
    intros _ s1 _ Hs1.
    destruct (random_sample_run rnd (seq 0 (length part_list)) (length part_list) s1)
      as (l & rest & s2 & Hrun & Hlen & Hperm & Hstore).
    { rewrite length_seq. lia. }
    exists l, s2. split; [exact Hrun|]. split; [|congruence].
    assert (rest = []) as ->.
    { apply Permutation_length in Hperm. rewrite length_app, length_seq in Hperm.
      apply nil_length_inv. lia. }
    rewrite app_nil_r in Hperm. exact Hperm.
  - cbv beta. intros population s' [Hall Hstore]. split; [|split; [|exact Hstore]].
    + rewrite <- (Forall2_length _ _ _ Hall). apply length_seq.
    + eapply Forall2_Forall_r; [exact Hall|]. apply Forall_forall. auto.
Qed.

End OptimizerEdges.

(** X7. With [generations = 0] the loop body never runs: for a population of
    at least one the optimizer returns its first random individual, a
    permutation of the part indices, without evaluating [fitness]; no part is
    given a position. *)
Theorem genetic_algorithm_zero_generations rnd W H part_list population_size
    mutation_rate s :
  (1 <= population_size)%nat ->
  exists best_order s',
    genetic_algorithm rnd W H part_list population_size 0 mutation_rate s
      = Ok (best_order, s') /\
    best_order ≡ₚ seq 0 (length part_list) /\
    store s' = store s /\
    value_of (random_sample rnd (seq 0 (length part_list)) (length part_list) s)
      = Ok best_order.
Proof.
  intros HP. destruct population_size as [|P]; [lia|].
  unfold genetic_algorithm, initialize_population.
  change (seq 0 (S P)) with (0%nat :: seq 1 P). cbn [for_each].
  destruct (random_sample_run rnd (seq 0 (length part_list)) (length part_list) s)
    as (l & rest & s1 & Hrun & Hlen & Hperm & Hstore).
  { rewrite length_seq. lia. }
  assert (rest = []) as ->.
  { apply Permutation_length in Hperm. rewrite length_app, length_seq in Hperm.
    apply nil_length_inv. lia. }
  rewrite app_nil_r in Hperm.
  destruct (returns_for_each
              (fun _ : nat => random_sample rnd (seq 0 (length part_list)) (length part_list))
              (fun _ _ => True) (fun s' => store s' = store s) (seq 1 P) s1 Hstore)
    as (others & s2 & Hothers & _ & Hstore2).
  { intros _ s' _ Hs'.
    destruct (random_sample_run rnd (seq 0 (length part_list)) (length part_list) s')
      as (l' & rest' & s'' & Hrun' & _ & _ & Hstore').
    { rewrite length_seq. lia. }
    exists l', s''. split; [exact Hrun'|]. split; [exact I|congruence]. }
  exists l, s2. unfold bind. rewrite Hrun, Hothers. cbn.
  split; [reflexivity|]. split; [exact Hperm|]. split; [exact Hstore2|reflexivity].
Qed.

Lemma genetic_algorithm_zero_generations_witness :
  exists best_order s',
    genetic_algorithm (fun _ => 1) 25 10
      [mkPart 0 "a.dxf" (0, 0, 10, 10); mkPart 1 "b.dxf" (0, 0, 15, 10)]
      3 0 (1 # 10) initial_state = Ok (best_order, s') /\
    store s' = [].
Proof.
  destruct (genetic_algorithm_zero_generations (fun _ => 1) 25 10
              [mkPart 0 "a.dxf" (0, 0, 10, 10); mkPart 1 "b.dxf" (0, 0, 15, 10)]
              3 (1 # 10) initial_state)
    as (best_order & s' & Hrun & _ & Hstore & _); [lia|].
  exists best_order, s'. auto.
Defined.

(** ** No part, one part *)

Lemma for_each_same {S A B} (f : A -> M S B) (c : B) l : forall s,
  (forall x s', x ∈ l -> f x s' = Ok (c, s')) ->
  for_each f l s = Ok (replicate (length l) c, s).
Proof.
  induction l as [|x l IH]; intros s Hf; [reflexivity|].
  cbn. unfold bind. rewrite Hf by left.
  rewrite IH by (intros x' s' Hx'; apply Hf; right; exact Hx'). reflexivity.
Qed.

Lemma zip_replicate {A B} n (a : A) (b : B) :
  zip (replicate n a) (replicate n b) = replicate n (a, b).
Proof. induction n as [|n IH]; cbn; [reflexivity|]. rewrite IH. reflexivity. Qed.

Lemma sort_by_key_replicate {A} n (x : fitness_value * A) :
  sort_by_key (replicate n x) = replicate n x.
Proof.
  induction n as [|n IH]; cbn; [reflexivity|]. rewrite IH.
  destruct n as [|n]; cbn; [reflexivity|].
  destruct x as [[k|] a]; cbn; [|reflexivity].
  rewrite Nat.leb_refl. reflexivity.
Qed.

Lemma on_store_fitness_nil W H s :
  on_store (fitness W H [] []) s = Ok (Finite 0, s).
Proof. destruct s. reflexivity. Qed.

(** X8. With no part at all the optimizer draws nothing and evaluates
    nothing that could change a position: for a population of at least one
    it returns the empty order and leaves the state as it was, and
    [nest_parts] returns the empty sheet. *)
Theorem no_parts_empty_order rnd W H population_size generations mutation_rate s :
  (1 <= population_size)%nat ->
  genetic_algorithm rnd W H [] population_size generations mutation_rate s
    = Ok ([], s) /\
  nest_parts rnd W H [] s = Ok (new_Sheet W H, s).
Proof.
  intros HP.
  assert (forall P G rate, (1 <= P)%nat ->
            genetic_algorithm rnd W H [] P G rate s = Ok ([], s)) as Hga.
  { clear. intros P G rate HP. destruct P as [|P]; [lia|].
    unfold genetic_algorithm, initialize_population. unfold bind at 1.
    rewrite (for_each_same _ []) by reflexivity. rewrite length_seq.
    unfold bind. destruct G as [|G]; [reflexivity|].
    cbn [generation_loop]. unfold bind at 1. unfold sort_population. unfold bind at 1.
    rewrite (for_each_same _ (Finite 0)).
    2:{ intros order s' Hin. apply elem_of_replicate in Hin as [-> _].
        apply on_store_fitness_nil. }
    rewrite length_replicate, zip_replicate, sort_by_key_replicate.
    cbn [ret]. rewrite fmap_replicate. cbn [snd].
    unfold bind. cbn [replicate subscript lookup list_lookup ret].
    rewrite on_store_fitness_nil. reflexivity. }
  split; [apply Hga, HP|].
  unfold nest_parts. cbn [imap]. unfold bind. rewrite Hga by lia.
  destruct s. reflexivity.
Qed.

Lemma no_parts_empty_order_witness :
  genetic_algorithm (fun _ => 7) 100 100 [] 50 100 (1 # 10) initial_state
    = Ok ([], initial_state).
Proof.
  apply (no_parts_empty_order (fun _ => 7) 100 100 50 100 (1 # 10) initial_state). lia.
Defined.

Lemma first_fit_placeable W H part h :
  placeable W H part ->
  exists pos,
    first_fit W H (new_Sheet W H) part h
      = Ok ((true, mkSheet W H [part]), (part, pos) :: h) /\
    on_lattice W H 10 pos /\
    can_place [] (new_Sheet W H) part pos = Ok true /\
    (forall pos', on_lattice W H 10 pos' ->
       can_place [] (new_Sheet W H) part pos' = Ok true ->
       scanned_before_or_at pos pos').
Proof.
  intros (pos0 & Hlat0 & Hcan0).
  destruct (first_fit_spec W H h (new_Sheet W H) part (positioned_new_Sheet h W H))
    as [(pos & Hlat & Hat & Hmin & Hrun)|[Hnone _]].
  - exists pos. split; [exact Hrun|]. split; [exact Hlat|]. split; [exact Hat|].
    intros pos' Hlat' Hcan'. apply Hmin; assumption.
  - specialize (Hnone pos0 Hlat0). rewrite can_place_empty_sheet in Hnone. congruence.
Qed.

Section OnePart.

Variable rnd : nat -> Z.
Variables sheet_width sheet_height : Z.
Variable part : Part.
Variable mutation_rate : Q.
Hypothesis part_placeable : placeable sheet_width sheet_height part.

Lemma fitness_placeable h :
  exists h', fitness sheet_width sheet_height [part] [0%nat] h = Ok (Finite 1, h').
Proof.
  unfold fitness.
  rewrite (fitness_loop_cons sheet_width sheet_height [part] _ 0 [] h part eq_refl).
  destruct (first_fit_placeable sheet_width sheet_height part h part_placeable)
    as (pos & -> & _). cbn. eauto.
Qed.

Lemma generation_loop_one_part remaining : forall (population : list (list nat)) s,
  Forall (valid_individual 1) population -> (1 <= length population)%nat ->
  returns (generation_loop rnd sheet_width sheet_height [part] (length population)
             mutation_rate remaining population) s
    (fun final _ => Forall (valid_individual 1) final /\ (1 <= length final)%nat).
Proof.
  destruct remaining as [|remaining]; intros population s Hv Hlen.
  - apply returns_ret. auto.
  - cbn [generation_loop]. apply returns_bind.
    eapply returns_mono; [apply sort_population_returns, Hv|]. cbv beta.
    intros sorted s1 Hsorted.
    assert (Forall (valid_individual 1) sorted) as Hv1 by (rewrite Hsorted; exact Hv).
    assert (1 <= length sorted)%nat as Hl by (rewrite Hsorted; exact Hlen).
    apply returns_bind. apply returns_subscript; [lia|].
    intros best Hbest.
    assert (best = [0%nat]) as ->.
    { apply valid_individual_1. rewrite Forall_forall in Hv1. apply Hv1.
      apply list_elem_of_lookup. eauto. }
    destruct (fitness_placeable (store s1)) as [h' Hfit].
    apply returns_bind. apply returns_on_store.
    exists (Finite 1), h'. split; [exact Hfit|]. cbn. apply returns_ret. auto.
Qed.

Lemma genetic_algorithm_one_part population_size generations s :
  (1 <= population_size)%nat ->
  returns (genetic_algorithm rnd sheet_width sheet_height [part] population_size
             generations mutation_rate) s
    (fun best_order _ => best_order = [0%nat]).
Proof.
  intros HP. unfold genetic_algorithm. apply returns_bind.
  eapply returns_mono; [apply initialize_population_returns|]. cbv beta.
  intros population s1 [Hlen Hv]. apply returns_bind. rewrite <- Hlen.
  eapply returns_mono; [apply generation_loop_one_part; [exact Hv|lia]|]. cbv beta.
  intros final s2 [Hfinal Hl]. apply returns_subscript; [lia|].
  intros best Hbest. apply valid_individual_1.
  rewrite Forall_forall in Hfinal. apply Hfinal. apply list_elem_of_lookup. eauto.
Qed.

End OnePart.

(** X9. One part that fits somewhere on the step-10 lattice is placed: for
    every random source [nest_parts] returns the sheet with that part alone,
    at the first offset, in scan order, at which it lies within the sheet. *)
Theorem single_placeable_part_is_placed rnd W H file s :
  placeable W H (new_Part 0 file) ->
  exists pos s',
    nest_parts rnd W H [file] s = Ok (mkSheet W H [new_Part 0 file], s') /\
    position (store s') (new_Part 0 file) = Ok pos /\
    on_lattice W H 10 pos /\
    can_place [] (new_Sheet W H) (new_Part 0 file) pos = Ok true /\
    (forall pos', on_lattice W H 10 pos' ->
       can_place [] (new_Sheet W H) (new_Part 0 file) pos' = Ok true ->
       pos.1 < pos'.1 \/ (pos.1 = pos'.1 /\ pos.2 <= pos'.2)).
Proof.
  intros Hpl.
  destruct (genetic_algorithm_one_part rnd W H (new_Part 0 file) (1 # 10) Hpl 50 100 s)
    as (best & s1 & Hga & ->); [lia|].
  destruct (first_fit_placeable W H (new_Part 0 file) (store s1) Hpl)
    as (pos & Hrun & Hlat & Hcan & Hmin).
  exists pos, (mkState (cursor s1) ((new_Part 0 file, pos) :: store s1)).
  split.
  { unfold nest_parts. cbn [imap]. unfold bind. rewrite Hga. unfold on_store.
    rewrite (replay_cons W H [new_Part 0 file] _ 0 [] _ (new_Part 0 file) eq_refl).
    rewrite Hrun. reflexivity. }
  split; [apply position_newest|]. split; [exact Hlat|]. split; [exact Hcan|].
  exact Hmin.
Qed.

Lemma single_placeable_part_is_placed_witness :
  exists pos s',
    nest_parts (fun _ => 0) 100 100 [("a.dxf"%string, (-5, 0, 10, 10))] initial_state
      = Ok (mkSheet 100 100 [new_Part 0 ("a.dxf"%string, (-5, 0, 10, 10))], s') /\
    position (store s') (new_Part 0 ("a.dxf"%string, (-5, 0, 10, 10))) = Ok pos.
Proof.
  destruct (single_placeable_part_is_placed (fun _ => 0) 100 100
              ("a.dxf"%string, (-5, 0, 10, 10)) initial_state)
    as (pos & s' & Hrun & Hpos & _).
  { exists (10, 0). split; [|reflexivity].
    unfold on_lattice. cbn. repeat split; lia. }
  exists pos, s'. auto.
Defined.

(** ** The history of a run *)





Section KeepsRules.

Context {S : Type} (R : S -> S -> Prop).
Hypothesis R_refl : forall s, R s s.
Hypothesis R_trans : forall s1 s2 s3, R s1 s2 -> R s2 s3 -> R s1 s3.






End KeepsRules.

(** What the optimizer keeps, for a relation on states that drawing a random
    number and evaluating [fitness] both keep. *)
Section KeepsOptimizer.

Variable rnd : nat -> Z.
Variables sheet_width sheet_height : Z.
Variable part_list : list Part.
Variables population_size : nat.
Variable mutation_rate : Q.
Variable R : State -> State -> Prop.
Hypothesis R_refl : forall s, R s s.
Hypothesis R_trans : forall s1 s2 s3, R s1 s2 -> R s2 s3 -> R s1 s3.
Hypothesis R_draw : forall s, R s (mkState (S (cursor s)) (store s)).
Hypothesis R_fitness : forall order,
  keeps R (on_store (fitness sheet_width sheet_height part_list order)).














End KeepsOptimizer.

Section History.

Variables sheet_width sheet_height : Z.
Variable part_list : list Part.









End History.






(** ** Reproduction in detail *)

(** X10. One round of reproduction adds two children, so a generation built
    from a population of size [P] has [2 * (P // 2)] individuals, all of them
    permutations: an odd population loses one individual for good. *)
Theorem reproduce_yields_even_generation rnd mutation_rate n
    (population : list (list nat)) population_size s :
  (2 <= n)%nat -> (2 <= length population)%nat ->
  Forall (fun order => order ≡ₚ seq 0 n) population ->
  exists next_generation s',
    reproduce rnd mutation_rate population (population_size / 2) [] s
      = Ok (next_generation, s') /\
    length next_generation = (population_size - population_size mod 2)%nat /\
    Forall (fun order => order ≡ₚ seq 0 n) next_generation.
Proof.
  intros Hn Hlen Hv.
  destruct (reproduce_returns rnd (replicate n (mkPart 0 "" (0, 0, 0, 0))) mutation_rate
              population (population_size / 2) [] s)
    as (next & s' & Hrun & Hnext & Hl).
  - rewrite length_replicate. exact Hn.
  - exact Hlen.
  - rewrite length_replicate. exact Hv.
  - constructor.
  - exists next, s'. split; [exact Hrun|]. rewrite length_replicate in Hnext.
    split; [|exact Hnext]. rewrite Hl. cbn [length].
    pose proof (Nat.div_mod_eq population_size 2). lia.
Qed.

Lemma reproduce_yields_even_generation_witness :
  exists next_generation s',
    reproduce (fun _ => 1) (1 # 10) [[0; 1; 2]; [2; 1; 0]]%nat (3 / 2) [] initial_state
      = Ok (next_generation, s') /\
    length next_generation = 2%nat.
Proof.
  destruct (reproduce_yields_even_generation (fun _ => 1) (1 # 10) 3
              [[0; 1; 2]; [2; 1; 0]]%nat 3 initial_state)
    as (next & s' & Hrun & Hlen & _).
  - lia.
  - cbn. lia.
  - repeat constructor. symmetry. exact (Permutation_rev [0; 1; 2]%nat).
  - exists next, s'. split; [exact Hrun|exact Hlen].
Defined.

(** X11. [crossover] cuts inside the first parent: for a first parent of
    length at least 2 it consumes one draw and leaves the positions alone;
    the child begins with the first [point] genes of [parent1], for a cut
    point between 1 and [len(parent1) - 1], and goes on with exactly the
    genes of [parent2] that this prefix lacks, in the order [parent2] has
    them. *)
Theorem crossover_prefix_then_parent2_order rnd parent1 parent2 s :
  (2 <= length parent1)%nat ->
  exists point child s',
    crossover rnd parent1 parent2 s = Ok (child, s') /\
    (1 <= point <= length parent1 - 1)%nat /\
    take point child = take point parent1 /\
    drop point child `sublist_of` parent2 /\
    (forall x, x ∈ drop point child <-> x ∈ parent2 /\ x ∉ take point parent1) /\
    cursor s' = S (cursor s) /\ store s' = store s.
Proof.
  intros Hlen. unfold crossover, bind, randint.
  destruct (Z.ltb_spec (Z.of_nat (length parent1) - 1) 1) as [|_]; [lia|].
  unfold bind.
  destruct (randbelow_run rnd (Z.to_nat (Z.of_nat (length parent1) - 1 - 1 + 1)) s)
    as (j & -> & Hj).
  specialize (Hj ltac:(lia)). cbn [ret].
  set (point := Z.to_nat (1 + Z.of_nat j)).
  assert (length (take point parent1) = point) as Hpre.
  { rewrite length_take. lia. }
  exists point, (take point parent1 ++ filter (fun x => x ∉ take point parent1) parent2).
  eexists. split; [reflexivity|]. split; [lia|].
  rewrite take_app_length' by (symmetry; exact Hpre).
  rewrite drop_app_length' by (symmetry; exact Hpre).
  split; [reflexivity|]. split; [apply sublist_filter|].
  split; [|split; reflexivity].
  intros x. rewrite list_elem_of_filter. tauto.
Qed.

Lemma crossover_prefix_then_parent2_order_witness :
  exists point child s',
    crossover (fun _ => 1) [0; 1; 2]%nat [2; 1; 0]%nat initial_state = Ok (child, s') /\
    take point child = take point [0; 1; 2]%nat.
Proof.
  destruct (crossover_prefix_then_parent2_order (fun _ => 1) [0; 1; 2]%nat [2; 1; 0]%nat
              initial_state)
    as (point & child & s' & Hrun & _ & Htake & _).
  - cbn. lia.
  - exists point, child, s'. auto.
Defined.

Lemma random_unit_interval rnd s :
  exists u, random_random rnd s = Ok (u, mkState (S (cursor s)) (store s)) /\
            (0 <= u)%Q /\ (u < 1)%Q.
Proof.
  eexists. split; [reflexivity|].
  pose proof (Z.mod_pos_bound (rnd (cursor s)) (2 ^ 53) ltac:(lia)) as Hb.
  unfold Qle, Qlt. cbn [Qnum Qden]. lia.
Qed.

Lemma sample_two_distinct rnd n s :
  (2 <= n)%nat ->
  exists i j s',
    random_sample rnd (seq 0 n) 2 s = Ok ([i; j], s') /\
    i <> j /\ (i < n)%nat /\ (j < n)%nat /\ store s' = store s.
Proof.
  intros Hn.
  destruct (random_sample_run rnd (seq 0 n) 2 s) as (l & rest & s' & Hrun & Hl & Hperm & Hst).
  { rewrite length_seq. exact Hn. }
  destruct l as [|i [|j [|? ?]]]; try discriminate Hl.
  exists i, j, s'. split; [exact Hrun|].
  assert (NoDup ([i; j] ++ rest)) as Hnd by (rewrite Hperm; apply NoDup_seq).
  assert (i ∈ seq 0 n /\ j ∈ seq 0 n) as [Hi Hj].
  { rewrite <- Hperm. split; [left|right; left]. }
  apply elem_of_seq in Hi, Hj.
  split; [|split; [lia|split; [lia|exact Hst]]].
  apply NoDup_app in Hnd as [Hnd _]. apply NoDup_cons in Hnd as [Hnot _].
  intros ->. apply Hnot. left.
Qed.

(** X12. [mutate] either leaves the order alone or exchanges the genes at
    two different positions, and never touches a position of a part.  It
    raises ([ValueError], from sampling two of fewer than two positions) only
    for an order shorter than 2.  With [mutation_rate <= 0] it never changes
    the order; with [mutation_rate >= 1] it always exchanges two positions of
    an order of length at least 2, which changes an order without repeated
    genes. *)
Theorem mutate_swaps_two_positions rnd mutation_rate order s :
  match mutate rnd mutation_rate order s with
  | Ok (order', s') =>
    store s' = store s /\
    (order' = order \/ exists i j, i <> j /\ swapped order i j order')
  | Raise e => e = ValueError /\ (length order < 2)%nat
  end /\
  ((mutation_rate <= 0)%Q ->
   value_of (mutate rnd mutation_rate order s) = Ok order) /\
  ((1 <= mutation_rate)%Q -> (2 <= length order)%nat ->
   exists i j order',
     value_of (mutate rnd mutation_rate order s) = Ok order' /\
     i <> j /\ swapped order i j order' /\ (NoDup order -> order' <> order)).
Proof.
  destruct (random_unit_interval rnd s) as (u & Hu & Hu0 & Hu1).
  assert (forall (Hfire : Qlt_bool u mutation_rate = true), (2 <= length order)%nat ->
            exists i j order' s',
              mutate rnd mutation_rate order s = Ok (order', s') /\
              store s' = store s /\ i <> j /\ swapped order i j order') as Hswap.
  { intros Hfire Hlen. unfold mutate, bind. rewrite Hu, Hfire.
    destruct (sample_two_distinct rnd (length order) (mkState (S (cursor s)) (store s)) Hlen)
      as (i & j & s' & -> & Hij & Hi & Hj & Hst).
    destruct (lookup_lt_is_Some_2 order i Hi) as [oi Hoi].
    destruct (lookup_lt_is_Some_2 order j Hj) as [oj Hoj].
    unfold subscript. rewrite Hoj, Hoi. cbn.
    exists i, j, (<[j := oi]> (<[i := oj]> order)), s'.
    split; [reflexivity|]. split; [exact Hst|]. split; [exact Hij|].
    exists oi, oj. auto. }
  assert (Qlt_bool u mutation_rate = false ->
          mutate rnd mutation_rate order s
          = Ok (order, mkState (S (cursor s)) (store s))) as Hkeep.
  { intros Hno. unfold mutate, bind. rewrite Hu, Hno. reflexivity. }
  split; [|split].
  - destruct (Qlt_bool u mutation_rate) eqn:Hfire.
    + destruct (le_lt_dec 2 (length order)) as [Hlen|Hlen].
      * destruct (Hswap eq_refl Hlen) as (i & j & order' & s' & -> & Hst & Hij & Hsw).
        split; [exact Hst|]. right. eauto.
      * unfold mutate, bind. rewrite Hu, Hfire.
        rewrite random_sample_too_large by (rewrite length_seq; exact Hlen). auto.
    + rewrite (Hkeep eq_refl). cbn. auto.
  - intros Hrate. rewrite Hkeep; [reflexivity|].
    unfold Qlt_bool. apply negb_false_iff, Qle_bool_iff.
    apply Qle_trans with 0%Q; assumption.
  - intros Hrate Hlen.
    assert (Qlt_bool u mutation_rate = true) as Hfire.
    { unfold Qlt_bool. apply negb_true_iff. apply not_true_is_false.
      rewrite Qle_bool_iff. apply Qlt_not_le.
      apply Qlt_le_trans with 1%Q; assumption. }
    destruct (Hswap Hfire Hlen) as (i & j & order' & s' & Hrun & _ & Hij & Hsw).
    exists i, j, order'. rewrite Hrun. split; [reflexivity|].
    split; [exact Hij|]. split; [exact Hsw|].
    intros Hnd Heq. destruct Hsw as (x & y & Hx & Hy & ->).
    assert (<[j:=x]> (<[i:=y]> order) !! j = Some x) as Hj'.
    { apply list_lookup_insert_eq. rewrite length_insert.
      apply lookup_lt_Some in Hy. exact Hy. }
    rewrite Heq, Hy in Hj'. injection Hj' as ->.
    apply Hij. exact (NoDup_lookup _ _ _ _ Hnd Hx Hy).
Qed.

Lemma mutate_swaps_two_positions_witness :
  value_of (mutate (fun _ => 0) 0 [0; 1; 2]%nat initial_state) = Ok [0; 1; 2]%nat /\
  exists i j order',
    value_of (mutate (fun _ => 0) 1 [0; 1; 2]%nat initial_state) = Ok order' /\
    i <> j /\ swapped [0; 1; 2]%nat i j order'.
Proof.
  destruct (mutate_swaps_two_positions (fun _ => 0) 0 [0; 1; 2]%nat initial_state)
    as (_ & Hzero & _).
  destruct (mutate_swaps_two_positions (fun _ => 0) 1 [0; 1; 2]%nat initial_state)
    as (_ & _ & Hone).
  split.
  - apply Hzero. unfold Qle. cbn. lia.
  - destruct Hone as (i & j & order' & Hrun & Hij & Hsw & _).
    + unfold Qle. cbn. lia.
    + cbn. lia.
    + exists i, j, order'. auto.
Defined.

(** * The geometry of a part *)

Lemma foldl_min_spec l : forall x,
  (foldl Z.min x l ∈ x :: l) /\ (forall y, y ∈ x :: l -> foldl Z.min x l <= y).
Proof.
  induction l as [|a l IH]; intros x; cbn.
  - split; [left|]. intros y Hy. apply list_elem_of_singleton in Hy as ->. lia.
  - destruct (IH (Z.min x a)) as [Hin Hle]. split.
    + apply elem_of_cons in Hin as [Hin|Hin]; [|right; right; exact Hin].
      rewrite Hin. destruct (Z.min_spec x a) as [[_ ->]|[_ ->]]; [left|right; left].
    + intros y Hy. apply elem_of_cons in Hy as [->|Hy].
      * specialize (Hle (Z.min x a) ltac:(left)). lia.
      * apply elem_of_cons in Hy as [->|Hy].
        -- specialize (Hle (Z.min x a) ltac:(left)). lia.
        -- apply Hle. right. exact Hy.
Qed.

Lemma foldl_max_spec l : forall x,
  (foldl Z.max x l ∈ x :: l) /\ (forall y, y ∈ x :: l -> y <= foldl Z.max x l).
Proof.
  induction l as [|a l IH]; intros x; cbn.
  - split; [left|]. intros y Hy. apply list_elem_of_singleton in Hy as ->. lia.
  - destruct (IH (Z.max x a)) as [Hin Hle]. split.
    + apply elem_of_cons in Hin as [Hin|Hin]; [|right; right; exact Hin].
      rewrite Hin. destruct (Z.max_spec x a) as [[_ ->]|[_ ->]]; [right; left|left].
    + intros y Hy. apply elem_of_cons in Hy as [->|Hy].
      * specialize (Hle (Z.max x a) ltac:(left)). lia.
      * apply elem_of_cons in Hy as [->|Hy].
        -- specialize (Hle (Z.max x a) ltac:(left)). lia.
        -- apply Hle. right. exact Hy.
Qed.

Lemma py_min_Ok l m :
  py_min l = Ok m -> m ∈ l /\ forall y, y ∈ l -> m <= y.
Proof.
  destruct l as [|x l]; [discriminate|]. intros [= <-]. apply foldl_min_spec.
Qed.

Lemma py_max_Ok l m :
  py_max l = Ok m -> m ∈ l /\ forall y, y ∈ l -> y <= m.
Proof.
  destruct l as [|x l]; [discriminate|]. intros [= <-]. apply foldl_max_spec.
Qed.

Section Geometry.

Variables circle_dx circle_dy : Z -> nat -> Z.
Variables arc_dx arc_dy : Z -> Z -> Z -> nat -> Z.

Abbreviation points_of := (sample_points circle_dx circle_dy arc_dx arc_dy).
Abbreviation box_of := (calculate_bounding_box circle_dx circle_dy arc_dx arc_dy).
Abbreviation entity_points' := (entity_points circle_dx circle_dy arc_dx arc_dy).

Lemma entity_points_nil entity : entity_points' entity = [] <-> pointless entity.
Proof.
  destruct entity; cbn; try tauto; split; try discriminate; try contradiction.
Qed.

Lemma sample_points_nil entities :
  points_of entities = [] <-> Forall pointless entities.
Proof.
  unfold sample_points. induction entities as [|e es IH]; cbn.
  - split; [constructor|reflexivity].
  - rewrite Forall_cons, <- IH, <- entity_points_nil. split.
    + intros H. apply app_eq_nil in H. exact H.
    + intros [-> ->]. reflexivity.
Qed.

Lemma sample_points_load msp : points_of (load_entities msp) = points_of msp.
Proof.
  unfold sample_points, load_entities. induction msp as [|e msp IH]; [reflexivity|].
  destruct e; cbn [map concat].
  1-4: rewrite filter_cons_True
         by (cbn; repeat (first [apply list_elem_of_here | apply list_elem_of_further]));
       cbn [map concat]; rewrite IH; reflexivity.
  destruct (decide (dxftype (OTHER kind) ∈ ["LINE"; "LWPOLYLINE"; "CIRCLE"; "ARC"]))
    as [Hin|Hout].
  - rewrite filter_cons_True by exact Hin. cbn [map concat]. rewrite IH. reflexivity.
  - rewrite filter_cons_False by exact Hout. rewrite IH. reflexivity.
Qed.

Lemma box_of_cases entities :
  match points_of entities with
  | [] => box_of entities = Raise ValueError
  | p :: ps =>
    box_of entities
    = Ok (foldl Z.min p.1 (map fst ps), foldl Z.min p.2 (map snd ps),
          foldl Z.max p.1 (map fst ps), foldl Z.max p.2 (map snd ps))
  end.
Proof.
  unfold calculate_bounding_box. destruct (points_of entities) as [|p ps]; reflexivity.
Qed.

(** X13. [Part(filename)] raises [ValueError] (from [min] of no points)
    exactly when the drawing holds nothing but entities of other kinds and
    polylines without vertices; any line, circle, arc or non-empty polyline
    gives the part a bounding box.  Entities of other kinds never change the
    outcome: the box is the one of the whole model space. *)
Theorem Part_init_fails_without_points n name msp :
  (Part_init circle_dx circle_dy arc_dx arc_dy n name msp = Raise ValueError <->
   Forall pointless msp) /\
  (~ Forall pointless msp ->
   exists box,
     Part_init circle_dx circle_dy arc_dx arc_dy n name msp
       = Ok (mkPart n name box, load_entities msp) /\
     box_of msp = Ok box).
Proof.
  assert (box_of (load_entities msp) = box_of msp) as Hload.
  { unfold calculate_bounding_box. rewrite sample_points_load. reflexivity. }
  unfold Part_init. rewrite Hload. rewrite <- sample_points_nil.
  pose proof (box_of_cases msp) as Hbox.
  destruct (points_of msp) as [|p ps]; rewrite Hbox.
  - split; [tauto|]. intros H. contradiction H. reflexivity.
  - split; [split; discriminate|]. intros _. eauto.
Qed.

Lemma box_of_tight entities box :
  box_of entities = Ok box ->
  (forall p, p ∈ points_of entities -> in_box box p) /\
  (exists p, p ∈ points_of entities /\ p.1 = r_min_x box) /\
  (exists p, p ∈ points_of entities /\ p.1 = r_max_x box) /\
  (exists p, p ∈ points_of entities /\ p.2 = r_min_y box) /\
  (exists p, p ∈ points_of entities /\ p.2 = r_max_y box) /\
  r_min_x box <= r_max_x box /\ r_min_y box <= r_max_y box.
Proof.
  unfold calculate_bounding_box. set (points := points_of entities).
  destruct (py_min (map fst points)) as [min_x|] eqn:Hminx; [|discriminate].
  destruct (py_max (map fst points)) as [max_x|] eqn:Hmaxx; [|discriminate].
  destruct (py_min (map snd points)) as [min_y|] eqn:Hminy; [|discriminate].
  destruct (py_max (map snd points)) as [max_y|] eqn:Hmaxy; [|discriminate].
  intros [= <-]. unfold in_box, r_min_x, r_max_x, r_min_y, r_max_y. cbn.
  apply py_min_Ok in Hminx as [Hax Hlx], Hminy as [Hay Hly].
  apply py_max_Ok in Hmaxx as [Hbx Hux], Hmaxy as [Hby Huy].
  assert (forall p, p ∈ points -> p.1 ∈ map fst points /\ p.2 ∈ map snd points) as Hproj.
  { intros p Hp. split; apply list_elem_of_fmap; eauto. }
  assert (forall (f : Point -> Z) v, v ∈ map f points -> exists p, p ∈ points /\ f p = v)
    as Hback.
  { intros f v Hv. apply list_elem_of_fmap in Hv as (p & -> & Hp). eauto. }
  split.
  { intros p Hp. destruct (Hproj p Hp) as [H1 H2].
    specialize (Hlx _ H1). specialize (Hux _ H1).
    specialize (Hly _ H2). specialize (Huy _ H2). lia. }
  split; [apply (Hback fst), Hax|]. split; [apply (Hback fst), Hbx|].
  split; [apply (Hback snd), Hay|]. split; [apply (Hback snd), Hby|].
  split; [apply Hlx, Hbx|apply Hly, Hby].
Qed.

(** X14. When [calculate_bounding_box] returns, the box is the smallest
    axis-aligned rectangle around the points sampled from the entities: every
    point lies in it, each of its four bounds is the coordinate of some
    point, and [min_x <= max_x], [min_y <= max_y]. *)
Theorem calculate_bounding_box_is_tight entities box :
  box_of entities = Ok box ->
  (forall p, p ∈ points_of entities -> in_box box p) /\
  (exists p, p ∈ points_of entities /\ p.1 = r_min_x box) /\
  (exists p, p ∈ points_of entities /\ p.1 = r_max_x box) /\
  (exists p, p ∈ points_of entities /\ p.2 = r_min_y box) /\
  (exists p, p ∈ points_of entities /\ p.2 = r_max_y box) /\
  r_min_x box <= r_max_x box /\ r_min_y box <= r_max_y box.
Proof. apply box_of_tight. Qed.

End Geometry.

Lemma Part_init_fails_without_points_witness :
  exists box,
    Part_init (fun _ _ => 0) (fun _ _ => 0) (fun _ _ _ _ => 0) (fun _ _ _ _ => 0)
      0 "a.dxf" [OTHER "TEXT"; LINE (0, 0) (10, 5)]
      = Ok (mkPart 0 "a.dxf" box, [LINE (0, 0) (10, 5)]).
Proof.
  destruct (proj2 (Part_init_fails_without_points
                     (fun _ _ => 0) (fun _ _ => 0) (fun _ _ _ _ => 0) (fun _ _ _ _ => 0)
                     0 "a.dxf" [OTHER "TEXT"; LINE (0, 0) (10, 5)]))
    as (box & Hrun & _).
  - intros H. apply Forall_cons in H as [_ H]. apply Forall_cons in H as [H _].
    exact H.
  - exists box. exact Hrun.
Defined.

Lemma calculate_bounding_box_is_tight_witness :
  in_box (0, -2, 10, 8) (4, 8).
Proof.
  apply (proj1 (calculate_bounding_box_is_tight
                  (fun _ _ => 0) (fun _ _ => 0) (fun _ _ _ _ => 0) (fun _ _ _ _ => 0)
                  [LINE (0, 0) (10, 5); LWPOLYLINE [(3, -2); (4, 8)]] (0, -2, 10, 8)
                  eq_refl)).
  cbn. repeat (first [apply list_elem_of_here | apply list_elem_of_further]).
Defined.

(** ** What the export draws *)



Section ExportToDxf.

Variable entities_of : Part -> list Entity.



End ExportToDxf.



(** * The driver that sorts by area *)

Lemma insert_by_area_Permutation x l : insert_by_area x l ≡ₚ x :: l.
Proof.
  induction l as [|y l IH]; cbn; [reflexivity|].
  destruct (area y <=? area x); [reflexivity|]. rewrite IH. apply perm_swap.
Qed.

Lemma optimize_parts_Permutation l : optimize_parts l ≡ₚ l.
Proof.
  induction l as [|x l IH]; cbn; [reflexivity|].
  rewrite insert_by_area_Permutation, IH. reflexivity.
Qed.

Lemma insert_by_area_sorted x l :
  StronglySorted (fun a b => area b <= area a) l ->
  StronglySorted (fun a b => area b <= area a) (insert_by_area x l).
Proof.
  induction 1 as [|y l Hsorted IH Hall]; cbn.
  - repeat constructor.
  - destruct (Z.leb_spec (area y) (area x)) as [Hle|Hgt].
    + constructor; [constructor; assumption|].
      constructor; [exact Hle|].
      eapply Forall_impl; [exact Hall|]. cbn. intros z Hz. lia.
    + constructor; [exact IH|].
      rewrite insert_by_area_Permutation. constructor; [lia|exact Hall].
Qed.

Lemma insert_by_area_stable a x l :
  filter (fun p => area p = a) (insert_by_area x l)
  = filter (fun p => area p = a) (x :: l).
Proof.
  induction l as [|y l IH]; cbn [insert_by_area]; [reflexivity|].
  destruct (Z.leb_spec (area y) (area x)) as [Hle|Hgt]; [reflexivity|].
  rewrite filter_cons, IH.
  destruct (decide (area y = a)) as [Hy|Hy].
  - rewrite (filter_cons_False _ x) by lia.
    rewrite (filter_cons_False _ x) by lia.
    rewrite filter_cons_True by exact Hy. reflexivity.
  - rewrite (filter_cons _ x (y :: l)), (filter_cons _ x l).
    rewrite (filter_cons_False _ y) by exact Hy. reflexivity.
Qed.

(** X17. [optimize_parts] rearranges the parts and loses none: its result is
    a permutation of the list, in order of non-increasing bounding-box area,
    and parts of equal area keep the order in which they were given. *)
Theorem optimize_parts_sorts_by_area part_list :
  optimize_parts part_list ≡ₚ part_list /\
  StronglySorted (fun a b => area b <= area a) (optimize_parts part_list) /\
  (forall a, filter (fun p => area p = a) (optimize_parts part_list)
             = filter (fun p => area p = a) part_list).
Proof.
  split; [apply optimize_parts_Permutation|]. split.
  - induction part_list as [|x l IH]; cbn; [constructor|].
    apply insert_by_area_sorted, IH.
  - intros a. induction part_list as [|x l IH]; [reflexivity|].
    cbn [optimize_parts]. rewrite insert_by_area_stable.
    rewrite !filter_cons, IH. reflexivity.
Qed.

Lemma lattice_scan_spec step W H h sheet part :
  0 < step -> positioned h sheet ->
  (exists pos,
     on_lattice W H step pos /\
     can_place h sheet part pos = Ok true /\
     (forall pos', on_lattice W H step pos' ->
        can_place h sheet part pos' = Ok true -> scanned_before_or_at pos pos') /\
     scan_x sheet part (py_range W step) (py_range H step) h
       = Ok ((true, append_part sheet part), (part, pos) :: h)) \/
  ((forall pos', on_lattice W H step pos' ->
      can_place h sheet part pos' = Ok false) /\
   scan_x sheet part (py_range W step) (py_range H step) h = Ok ((false, sheet), h)).
Proof.
  intros Hstep Hpos. unfold on_lattice.
  destruct (scan_x_spec h sheet part (py_range W step) (py_range H step) Hpos)
    as [(xs1 & x & xs2 & ys1 & y & ys2 & Hxs & Hys & Hcols & Hbefore & Hat & Hrun)
       |[Hnone Hrun]].
  - left. exists (x, y).
    destruct (py_range_split _ _ _ _ _ Hstep Hxs) as [Hx1 Hx2].
    destruct (py_range_split _ _ _ _ _ Hstep Hys) as [Hy1 Hy2].
    split; [|split; [exact Hat|split; [|exact Hrun]]].
    + cbn. rewrite <- !elem_of_py_range by exact Hstep. rewrite Hxs, Hys.
      split; apply elem_of_app; right; left.
    + intros [x' y']. cbn. rewrite <- !elem_of_py_range by exact Hstep.
      intros [Hx' Hy'] Hfeasible. unfold scanned_before_or_at. cbn.
      rewrite Hxs in Hx'. apply elem_of_app in Hx' as [Hx'|Hx'].
      * rewrite (Hcols x' y' Hx' Hy') in Hfeasible. discriminate.
      * apply elem_of_cons in Hx' as [->|Hx']; [|left; auto].
        right. split; [reflexivity|].
        rewrite Hys in Hy'. apply elem_of_app in Hy' as [Hy'|Hy'].
        -- rewrite (Hbefore y' Hy') in Hfeasible. discriminate.
        -- apply elem_of_cons in Hy' as [->|Hy']; [lia|].
           specialize (Hy2 y' Hy'). lia.
  - right. split; [|exact Hrun].
    intros [x' y']. cbn. rewrite <- !elem_of_py_range by exact Hstep.
    intros [Hx' Hy']. auto.
Qed.

Lemma nest_loop_run part_list : forall sheet h,
  sheet_invariant_objects h sheet ->
  NoDup part_list ->
  (forall p, p ∈ part_list -> p ∉ parts sheet) ->
  exists sheet' printed h' accepted unplaced,
    nest_loop sheet part_list h = Ok ((sheet', printed), h') /\
    parts sheet' = parts sheet ++ accepted /\
    width sheet' = width sheet /\ height sheet' = height sheet /\
    agree_on h h' (parts sheet) /\
    sheet_invariant_objects h' sheet' /\
    accepted `sublist_of` part_list /\ unplaced `sublist_of` part_list /\
    accepted ++ unplaced ≡ₚ part_list /\
    printed = map could_not_place unplaced /\
    forall p, p ∈ unplaced ->
      forall pos, on_lattice (width sheet) (height sheet) 1 pos ->
        can_place h' sheet' p pos = Ok false.
Proof.
  induction part_list as [|part rest IH]; intros sheet h Hinv Hnd Hnew.
  - exists sheet, [], h, [], []. rewrite app_nil_r.
    split; [reflexivity|]. split; [reflexivity|]. split; [reflexivity|].
    split; [reflexivity|]. split; [intros q _; reflexivity|]. split; [exact Hinv|].
    split; [constructor|]. split; [constructor|]. split; [reflexivity|].
    split; [reflexivity|]. intros p Hp. inversion Hp.
  - apply NoDup_cons in Hnd as [Hfresh Hnd].
    cbn [nest_loop]. unfold bind at 1.
    destruct (lattice_scan_spec 1 (width sheet) (height sheet) h sheet part ltac:(lia)
                (contained_positioned _ _ (proj1 Hinv)))
      as [(pos & _ & Hcan & _ & ->)|[Hnone ->]].
    + destruct (IH (append_part sheet part) ((part, pos) :: h))
        as (sheet' & printed & h' & acc & unp & Hrun & Hparts & Hw & Hh & Hag & Hinv'
            & Hsa & Hsu & Hperm & Hprinted & Hout);
        [apply invariant_accept; assumption|exact Hnd| |].
      { intros p Hp Hin. cbn in Hin. apply elem_of_app in Hin as [Hin|Hin].
        - apply (Hnew p); [right; exact Hp|exact Hin].
        - apply list_elem_of_singleton in Hin as ->. contradiction. }
      exists sheet', printed, h', (part :: acc), unp.
      split. { unfold bind. rewrite Hrun. reflexivity. }
      split. { rewrite Hparts. cbn. rewrite <- app_assoc. reflexivity. }
      split; [exact Hw|]. split; [exact Hh|]. split.
      { intros q Hq. rewrite <- Hag by (cbn; apply elem_of_app; left; exact Hq).
        rewrite position_older; [reflexivity|].
        intros ->. apply (Hnew part); [left|exact Hq]. }
      split; [exact Hinv'|]. split; [apply sublist_skip, Hsa|].
      split; [apply sublist_cons, Hsu|]. split; [cbn; rewrite Hperm; reflexivity|].
      split; [exact Hprinted|]. exact Hout.
    + destruct (IH sheet h)
        as (sheet' & printed & h' & acc & unp & Hrun & Hparts & Hw & Hh & Hag & Hinv'
            & Hsa & Hsu & Hperm & Hprinted & Hout);
        [exact Hinv|exact Hnd| |].
      { intros p Hp. apply Hnew. right. exact Hp. }
      exists sheet', (could_not_place part :: printed), h', acc, (part :: unp).
      split. { unfold bind. rewrite Hrun. reflexivity. }
      split; [exact Hparts|]. split; [exact Hw|]. split; [exact Hh|].
      split; [exact Hag|]. split; [exact Hinv'|]. split; [apply sublist_cons, Hsa|].
      split; [apply sublist_skip, Hsu|].
      split. { rewrite <- Hperm. symmetry. apply Permutation_middle. }
      split; [cbn; rewrite Hprinted; reflexivity|].
      intros p Hp pos Hlat. apply elem_of_cons in Hp as [->|Hp]; [|apply Hout; assumption].
      eapply can_place_stays_false; eauto.
      apply contained_positioned, Hinv'.
Qed.

Lemma nest_parts_by_area_run W H files h :
  exists sheet printed h' unplaced,
    nest_parts_by_area W H files h = Ok ((sheet, printed), h') /\
    width sheet = W /\ height sheet = H /\
    sheet_invariant h' sheet /\
    parts sheet `sublist_of` optimize_parts (imap new_Part files) /\
    unplaced `sublist_of` optimize_parts (imap new_Part files) /\
    parts sheet ++ unplaced ≡ₚ imap new_Part files /\
    printed = map could_not_place unplaced /\
    forall p, p ∈ unplaced ->
      forall pos, on_lattice W H 1 pos -> can_place h' sheet p pos = Ok false.
Proof.
  assert (NoDup (optimize_parts (imap new_Part files))) as Hnd.
  { rewrite optimize_parts_Permutation. apply new_Part_NoDup. }
  destruct (nest_loop_run (optimize_parts (imap new_Part files)) (new_Sheet W H) h
              (invariant_new_Sheet h W H) Hnd)
    as (sheet & printed & h' & acc & unp & Hrun & Hparts & Hw & Hh & _ & Hinv
        & Hsa & Hsu & Hperm & Hprinted & Hout).
  { intros p _ Hin. inversion Hin. }
  cbn in Hparts. rewrite <- Hparts in *.
  exists sheet, printed, h', unp. split; [exact Hrun|].
  split; [exact Hw|]. split; [exact Hh|]. split.
  { destruct Hinv as [Hc Hd]. split; [exact Hc|].
    apply objects_entries_disjoint; [|exact Hd]. eapply sublist_NoDup; eassumption. }
  split; [exact Hsa|]. split; [exact Hsu|].
  split; [rewrite Hperm; apply optimize_parts_Permutation|].
  split; [exact Hprinted|exact Hout].
Qed.

(** X18. The driver that sorts by area accounts for every part: it always
    returns, and each part of the input is either on the returned sheet or
    named in one printed line "Could not place part: ...", never both and
    never neither; the accepted parts and the printed lines both follow the
    order of non-increasing area. *)
Theorem nest_parts_by_area_accounts_for_every_part W H files h :
  exists sheet printed h' unplaced,
    nest_parts_by_area W H files h = Ok ((sheet, printed), h') /\
    parts sheet ++ unplaced ≡ₚ imap new_Part files /\
    NoDup (parts sheet ++ unplaced) /\
    printed = map could_not_place unplaced /\
    parts sheet `sublist_of` optimize_parts (imap new_Part files) /\
    unplaced `sublist_of` optimize_parts (imap new_Part files).
Proof.
  destruct (nest_parts_by_area_run W H files h)
    as (sheet & printed & h' & unp & Hrun & _ & _ & _ & Hsa & Hsu & Hperm & Hprinted & _).
  exists sheet, printed, h', unp. split; [exact Hrun|]. split; [exact Hperm|].
  split; [rewrite Hperm; apply new_Part_NoDup|]. auto.
Qed.

(** X19. What that driver returns is a valid layout and an honest report:
    every accepted part passes the bounds test of [can_place] at its
    position, no two entries of the accepted list overlap under
    [check_overlap], and a part it reports as not placed is rejected by
    [can_place] at every integer offset [0 <= x < width], [0 <= y < height]
    of the final sheet. *)
Theorem nest_parts_by_area_layout_and_report W H files h :
  exists sheet printed h',
    nest_parts_by_area W H files h = Ok ((sheet, printed), h') /\
    layout_entries h' sheet /\
    forall p, p ∈ imap new_Part files -> p ∉ parts sheet ->
      could_not_place p ∈ printed /\
      forall x y, 0 <= x < W -> 0 <= y < H ->
        can_place h' sheet p (x, y) = Ok false.
Proof.
  destruct (nest_parts_by_area_run W H files h)
    as (sheet & printed & h' & unp & Hrun & _ & _ & Hinv & _ & _ & Hperm & Hprinted & Hout).
  exists sheet, printed, h'. split; [exact Hrun|]. split.
  { destruct Hinv as [Hc Hd]. split; [apply accepted_in_bounds_contained, Hc|exact Hd]. }
  intros p Hp Hnot.
  assert (p ∈ unp) as Hunp.
  { rewrite <- Hperm in Hp. apply elem_of_app in Hp as [Hp|Hp]; [contradiction|exact Hp]. }
  split.
  - rewrite Hprinted. apply list_elem_of_fmap. eauto.
  - intros x y Hx Hy. apply Hout; [exact Hunp|].
    unfold on_lattice. cbn. rewrite !Z.mod_1_r. lia.
Qed.

(** * More on the sheet and the optimizer *)

(** ** Calls and accepted parts *)

Lemma add_parts_accepted calls : forall h self,
  sheet_invariant_objects h self ->
  exists oks self' h',
    add_parts self calls h = Ok ((oks, self'), h') /\
    length oks = length calls /\
    parts self' = parts self ++ map fst (accepted_calls calls oks) /\
    h' = reverse (accepted_calls calls oks) ++ h.
Proof.
  induction calls as [|[part pos] calls IH]; intros h self Hinv.
  - exists [], self, h. cbn. rewrite app_nil_r. auto.
  - destruct (add_part_invariant h self part pos Hinv)
      as (ok & self1 & h1 & Hrun1 & Hinv1 & _).
    pose proof (add_part_cases h self part pos) as Hcase.
    destruct (IH h1 self1 Hinv1) as (oks & self2 & h2 & Hrun2 & Hlen & Hparts & Hstore).
    exists (ok :: oks), self2, h2.
    split. { cbn. unfold bind. rewrite Hrun1, Hrun2. reflexivity. }
    split; [cbn; lia|].
    unfold accepted_calls in *. cbn [zip zip_with].
    destruct (can_place h self part pos) as [[|]|e]; rewrite Hcase in Hrun1;
      [| |discriminate Hrun1]; injection Hrun1 as <- <- <-.
    + rewrite filter_cons_True by reflexivity. cbn [map fst].
      rewrite Hparts, Hstore. cbn [parts append_part].
      rewrite reverse_cons, <- !app_assoc. auto.
    + rewrite filter_cons_False by discriminate. auto.
Qed.

(** X21. The accepted list of a sheet is its history: after any sequence of
    [add_part] calls on a new sheet, [sheet.parts] holds exactly the parts of
    the calls that returned true, in call order, and the positions assigned
    are exactly those of these calls, one assignment per accepted call. *)
Theorem add_parts_records_accepted_calls W H calls h :
  exists oks self' h',
    add_parts (new_Sheet W H) calls h = Ok ((oks, self'), h') /\
    length oks = length calls /\
    parts self' = map fst (accepted_calls calls oks) /\
    h' = reverse (accepted_calls calls oks) ++ h.
Proof.
  destruct (add_parts_accepted calls h (new_Sheet W H) (invariant_new_Sheet h W H))
    as (oks & self' & h' & Hrun & Hlen & Hparts & Hstore).
  exists oks, self', h'. auto.
Qed.

(** ** Convergence in the first generation *)

Lemma fitness_le_trans a b c :
  fitness_le a b = true -> fitness_le b c = true -> fitness_le a c = true.
Proof.
  destruct a, b, c; cbn; try reflexivity; try discriminate.
  rewrite !Nat.leb_le. lia.
Qed.

Lemma fitness_le_total a b : fitness_le a b = false -> fitness_le b a = true.
Proof.
  destruct a, b; cbn; try reflexivity; try discriminate.
  rewrite Nat.leb_le, Nat.leb_gt. lia.
Qed.

(** The sort is stable: its first element is the first element of the list
    whose key is least. *)
Lemma sort_by_key_head_split {A} (l : list (fitness_value * A)) : forall h rest,
  sort_by_key l = h :: rest ->
  exists l1 l2, l = l1 ++ h :: l2 /\
    (forall y, y ∈ l1 -> fitness_le y.1 h.1 = false) /\
    (forall y, y ∈ l2 -> fitness_le h.1 y.1 = true).
Proof.
  induction l as [|x l IH]; intros h rest Hsort; [discriminate Hsort|].
  cbn in Hsort. destruct (sort_by_key l) as [|z zs] eqn:Hl.
  - pose proof (sort_by_key_Permutation l) as Hp. rewrite Hl in Hp.
    apply Permutation_nil_l in Hp. destruct l; [|discriminate Hp].
    cbn in Hsort. injection Hsort as <- <-. exists [], [].
    split; [reflexivity|]. split; intros y Hy; inversion Hy.
  - destruct (IH z zs eq_refl) as (l1 & l2 & -> & Hbefore & Hafter).
    cbn in Hsort. destruct (fitness_le x.1 z.1) eqn:Hxz; injection Hsort as <- <-.
    + exists [], (l1 ++ z :: l2). split; [reflexivity|].
      split; [intros y Hy; inversion Hy|].
      intros y Hy. apply elem_of_app in Hy as [Hy|Hy].
      * eapply fitness_le_trans; [exact Hxz|]. apply fitness_le_total, Hbefore, Hy.
      * apply elem_of_cons in Hy as [->|Hy]; [exact Hxz|].
        eapply fitness_le_trans; [exact Hxz|]. apply Hafter, Hy.
    + exists (x :: l1), l2. split; [reflexivity|]. split; [|exact Hafter].
      intros y Hy. apply elem_of_cons in Hy as [->|Hy]; [exact Hxz|apply Hbefore, Hy].
Qed.

Lemma keeps_cursor_on_store {A} (m : M Store A) :
  keeps (fun s s' => cursor s' = cursor s) (on_store m).
Proof.
  intros s a s' E. unfold on_store in E.
  destruct (m (store s)) as [[a' h]|e]; [|discriminate E].
  injection E as _ <-. reflexivity.
Qed.

Section FirstGeneration.

Variable rnd : nat -> Z.
Variables sheet_width sheet_height : Z.
Variable part_list : list Part.
Variable mutation_rate : Q.

Abbreviation valid := (valid_individual (length part_list)).
Abbreviation score' := (score sheet_width sheet_height part_list).
Abbreviation evaluate :=
  (fun order => on_store (fitness sheet_width sheet_height part_list order)).

Lemma fitness_returns_score order s :
  valid order ->
  returns (evaluate order) s
    (fun f s' => (score' order = Ok f /\
                  (f = Infinity \/ f = Finite (length part_list))) /\
                 cursor s' = cursor s).
Proof.
  intros Hv.
  assert (forall f h',
            fitness sheet_width sheet_height part_list order (store s) = Ok (f, h') ->
            score' order = Ok f) as Hscore.
  { intros f h' E. unfold score, fitness in *.
    rewrite (fitness_loop_agree sheet_width sheet_height part_list order
               (new_Sheet sheet_width sheet_height) [] (store s))
      by (intros q Hq; inversion Hq).
    rewrite E. reflexivity. }
  apply returns_on_store.
  destruct (fitness_cases sheet_width sheet_height part_list order (store s) Hv)
    as [h' [[E _]|[E _]]]; eexists _, h'; (split; [exact E|]);
    (split; [split; [exact (Hscore _ _ E)|auto]|reflexivity]).
Qed.

(** The keys of a sort: one evaluation per individual, in list order, none of
    which draws a random number. *)
Lemma evaluations_run (population : list (list nat)) s :
  Forall valid population ->
  exists keys s1,
    for_each evaluate population s = Ok (keys, s1) /\
    cursor s1 = cursor s /\
    Forall2 (fun order key => score' order = Ok key /\
                              (key = Infinity \/ key = Finite (length part_list)))
            population keys.
Proof.
  intros Hv.
  destruct (returns_for_each evaluate
              (fun order key => score' order = Ok key /\
                                (key = Infinity \/ key = Finite (length part_list)))
              (fun s' => cursor s' = cursor s) population s eq_refl)
    as (keys & s1 & Hrun & Hall & Hcur).
  - intros order s' Hin Hs'. rewrite Forall_forall in Hv.
    eapply returns_mono; [apply fitness_returns_score, Hv, Hin|]. cbv beta.
    intros f s'' [HQ Hc]. split; [exact HQ|congruence].
  - exists keys, s1. auto.
Qed.

Lemma genetic_algorithm_first_generation population_size generations s :
  (1 <= population_size)%nat -> (1 <= generations)%nat ->
  returns (initialize_population rnd part_list population_size) s
    (fun population s0 =>
       (exists order k, order ∈ population /\ score' order = Ok (Finite k)) ->
       exists before best_order after keys s1 s',
         genetic_algorithm rnd sheet_width sheet_height part_list population_size
           generations mutation_rate s = Ok (best_order, s') /\
         population = before ++ best_order :: after /\
         (forall order, order ∈ before -> score' order = Ok Infinity) /\
         score' best_order = Ok (Finite (length part_list)) /\
         for_each evaluate population s0 = Ok (keys, s1) /\
         evaluate best_order s1 = Ok (Finite (length part_list), s') /\
         cursor s' = cursor s0).
Proof.
  intros HP HG. destruct generations as [|generations]; [lia|].
  destruct (initialize_population_returns rnd part_list population_size s)
    as (population & s0 & Hinit & Hlen & Hv).
  exists population, s0. split; [exact Hinit|].
  intros (order & k & Hin & Hscore).
  destruct (evaluations_run population s0 Hv) as (keys & s1 & Hkeys & Hcur & Hall).
  pose proof (Forall2_length _ _ _ Hall) as Hlength.
  assert (forall k o, (k, o) ∈ zip keys population ->
            score' o = Ok k /\ (k = Infinity \/ k = Finite (length part_list))) as Hzip.
  { clear -Hall. induction Hall as [|o k os ks Hok Hall IH]; intros k' o' Hin.
    - inversion Hin.
    - cbn in Hin. apply elem_of_cons in Hin as [[= -> ->]|Hin]; auto. }
  assert (forall o, o ∈ population -> exists k, (k, o) ∈ zip keys population) as Hkey.
  { clear -Hall. induction Hall as [|o k os ks Hok Hall IH]; intros o' Hin.
    - inversion Hin.
    - apply elem_of_cons in Hin as [->|Hin]; [exists k; left|].
      destruct (IH o' Hin) as [k' Hk']. exists k'. right. exact Hk'. }
  destruct (sort_by_key (zip keys population)) as [|[k0 best] rest] eqn:Hsort.
  { exfalso. pose proof (sort_by_key_Permutation (zip keys population)) as Hp.
    rewrite Hsort in Hp. apply Permutation_nil_l in Hp.
    destruct (Hkey order Hin) as [k' Hk']. rewrite <- Hp in Hk'. inversion Hk'. }
  destruct (sort_by_key_head_split _ _ _ Hsort) as (l1 & l2 & Hsplit & Hbefore & Hafter).
  assert ((k0, best) ∈ zip keys population) as Hbest.
  { rewrite Hsplit. apply elem_of_app. right. left. }
  destruct (Hzip _ _ Hbest) as [Hk0 Hcases].
  assert (k0 = Finite (length part_list)) as ->.
  { destruct Hcases as [-> | ->]; [exfalso|reflexivity].
    destruct (Hkey order Hin) as [k' Hk']. destruct (Hzip _ _ Hk') as [Hscore' _].
    rewrite Hscore in Hscore'. injection Hscore' as <-.
    rewrite Hsplit in Hk'. apply elem_of_app in Hk' as [Hk'|Hk'].
    - specialize (Hbefore _ Hk'). discriminate Hbefore.
    - apply elem_of_cons in Hk' as [Hk'|Hk']; [discriminate Hk'|].
      specialize (Hafter _ Hk'). discriminate Hafter. }
  assert (population = l1.*2 ++ best :: l2.*2) as Hpop.
  { rewrite <- (snd_zip keys population) at 1 by lia.
    rewrite Hsplit, fmap_app. reflexivity. }
  assert (valid best) as Hvbest.
  { rewrite Forall_forall in Hv. apply Hv. rewrite Hpop.
    apply elem_of_app. right. left. }
  destruct (fitness_returns_score best s1 Hvbest) as (f & s2 & Hfit & [[Hf _] Hcur2]).
  rewrite Hk0 in Hf. injection Hf as <-.
  exists l1.*2, best, l2.*2, keys, s1, s2.
  split; [|split; [exact Hpop|split; [|split; [exact Hk0|split; [exact Hkeys|
    split; [exact Hfit|congruence]]]]]].
  - unfold genetic_algorithm, bind. rewrite Hinit. cbn [generation_loop].
    unfold bind, sort_population, bind. rewrite Hkeys. unfold ret at 1.
    rewrite Hsort. cbn [map fst snd subscript lookup list_lookup ret]. rewrite Hfit.
    cbn [fitness_eq_int]. rewrite Nat.eqb_refl. reflexivity.
  - intros o Ho. apply list_elem_of_fmap in Ho as ([k' o'] & -> & Hin').
    assert ((k', o') ∈ zip keys population) as Hz.
    { rewrite Hsplit. apply elem_of_app. left. exact Hin'. }
    destruct (Hzip _ _ Hz) as [Hscore' [-> | ->]]; [exact Hscore'|].
    specialize (Hbefore _ Hin'). cbn in Hbefore. rewrite Nat.leb_refl in Hbefore.
    discriminate Hbefore.
Qed.

End FirstGeneration.

(** X22. A feasible order in the first population ends the search at once.
    With at least one generation, if some individual of the initial
    population places every part (finite fitness), the optimizer returns the
    first such individual of that population, in list order: every
    individual before it has fitness [inf] and its own fitness is the number
    of parts.  The run is the initialisation, one evaluation of every
    individual for the sort and one more of the returned individual, and
    nothing else: no random number is drawn after the initialisation, so no
    reproduction takes place. *)
Theorem genetic_algorithm_converges_in_first_generation rnd W H part_list
    population_size generations mutation_rate s :
  (1 <= population_size)%nat -> (1 <= generations)%nat ->
  exists population s0,
    initialize_population rnd part_list population_size s = Ok (population, s0) /\
    ((exists order k, order ∈ population /\ score W H part_list order = Ok (Finite k)) ->
     exists before best_order after keys s1 s',
       genetic_algorithm rnd W H part_list population_size generations mutation_rate s
         = Ok (best_order, s') /\
       population = before ++ best_order :: after /\
       (forall order, order ∈ before -> score W H part_list order = Ok Infinity) /\
       score W H part_list best_order = Ok (Finite (length part_list)) /\
       for_each (fun order => on_store (fitness W H part_list order)) population s0
         = Ok (keys, s1) /\
       on_store (fitness W H part_list best_order) s1
         = Ok (Finite (length part_list), s') /\
       cursor s' = cursor s0).
Proof.
  intros HP HG.
  exact (genetic_algorithm_first_generation rnd W H part_list mutation_rate
           population_size generations s HP HG).
Qed.

Lemma genetic_algorithm_converges_in_first_generation_witness :
  let parts := [mkPart 0 "a.dxf" (0, 0, 10, 10); mkPart 1 "b.dxf" (0, 0, 15, 10)] in
  exists best_order s',
    genetic_algorithm (draws [1]) 25 10 parts 3 2 (1 # 10) initial_state
      = Ok (best_order, s') /\
    best_order = [0; 1]%nat /\
    score 25 10 parts [1; 0]%nat = Ok Infinity /\
    cursor s' = 6%nat.
Proof.
  intros parts.
  destruct (genetic_algorithm_converges_in_first_generation (draws [1]) 25 10
              parts 3 2 (1 # 10) initial_state)
    as (population & s0 & Hinit & Hconv); [lia|lia|].
  vm_compute in Hinit. injection Hinit as <- <-.
  destruct Hconv as (before & best & after & keys & s1 & s' & Hrun & Hsplit & Hinf
                     & Hscore & _ & _ & Hcur).
  - exists [0; 1]%nat, 2%nat. split; [right; left|reflexivity].
  - exists best, s'. split; [exact Hrun|].
    destruct before as [|o before].
    { exfalso. injection Hsplit as <- _. vm_compute in Hscore. discriminate Hscore. }
    injection Hsplit as <- Hsplit.
    destruct before as [|o' before].
    + injection Hsplit as <- _. split; [reflexivity|]. split; [reflexivity|exact Hcur].
    + exfalso. injection Hsplit as <- _.
      specialize (Hinf [0; 1]%nat ltac:(right; left)). discriminate Hinf.
Defined.
